(** * MetricsTail: ingestion, buffering and flush scheduling of worker metrics

    A shallow embedding of [src/index.ts] (the [MetricsTail] class and
    [isValidMetric]) together with the statements of its specification.

    JavaScript runs every synchronous stretch of code to completion before the
    next task starts: a task is only left at an [await].  The embedding
    follows that: one call of [processTraceItems], the continuation of one
    [scheduler.wait] that has elapsed or was rejected, and the continuation
    of one settled [Promise.allSettled] are each a single step of a
    transition system, and the tasks suspended at an [await] are part of its
    state.  The calls a step makes on its collaborators (the metrics store,
    the sinks, the console, the scheduler) are recorded, in call order, in a
    trace. *)

From stdpp Require Import gmap strings list pretty.
From Stdlib Require Import QArith.

Set Warnings "-register-all,-clear-no-such-hyp".
Close Scope Q_scope.
Local Open Scope string_scope.

(** ** JavaScript numbers

    A finite double is a rational, so finite numbers are carried as [Q] and
    compared with [Qle_bool] / [Qeq_bool]; the three non finite doubles are
    constructors of their own.  Comparisons, truthiness and [Math.min] are
    exact on this representation.  Sums and products are rounded as IEEE 754
    binary64 arithmetic rounds them: to the nearest double, ties to the even
    significand, overflowing to an infinity ([binary64]).  The sign of a
    zero is not kept; nothing here divides. *)

Inductive number : Type :=
| Finite (q : Q)
| NaN
| Infinity
| NegInfinity.

Definition num_of_Z (z : Z) : number := Finite (inject_Z z).
Definition num_of_nat (n : nat) : number := num_of_Z (Z.of_nat n).

(** [!!x] for a number: [0], [-0] and [NaN] are falsy. *)
Definition num_truthy (n : number) : bool :=
  match n with
  | Finite q => negb (Qeq_bool q 0)
  | NaN => false
  | Infinity | NegInfinity => true
  end.

(** [a <= b]; every comparison with [NaN] is false. *)
Definition num_le (a b : number) : bool :=
  match a, b with
  | NaN, _ | _, NaN => false
  | NegInfinity, _ => true
  | _, Infinity => true
  | Infinity, _ => false
  | _, NegInfinity => false
  | Finite x, Finite y => Qle_bool x y
  end.

(** [a >= b] *)
Definition num_ge (a b : number) : bool := num_le b a.

(** [Math.min(a, b)] *)
Definition Math_min (a b : number) : number :=
  match a, b with
  | NaN, _ | _, NaN => NaN
  | _, _ => if num_le a b then a else b
  end.

Definition num_sign (n : number) : comparison :=
  match n with
  | Finite q => (q ?= 0)%Q
  | NaN => Eq
  | Infinity => Gt
  | NegInfinity => Lt
  end.

(** The integer nearest to [p / r], for [0 <= p] and [0 < r]; a tie goes to
    the even one. *)
Definition roundHalfEven (p r : Z) : Z :=
  let f := (p / r)%Z in
  let twice := (2 * (p mod r))%Z in
  if (twice <? r)%Z then f
  else if (r <? twice)%Z then (f + 1)%Z
  else if Z.even f then f else (f + 1)%Z.

(** [2 ^ e <= n / d], for positive [n] and [d]. *)
Definition reaches (n d e : Z) : bool :=
  if (0 <=? e)%Z then (d * 2 ^ e <=? n)%Z else (d <=? n * 2 ^ (- e))%Z.

(** The binary exponent of [n / d], for positive [n] and [d]: the [e] with
    [2 ^ e <= n / d < 2 ^ (e + 1)]. *)
Definition exponentOf (n d : Z) : Z :=
  let e := (Z.log2 n - Z.log2 d)%Z in
  if reaches n d e then e else (e - 1)%Z.

(** The double nearest to the real number [x].  A double has a significand
    of 53 bits and an exponent from [-1022] (below it the spacing stays that
    of the subnormals, [2 ^ -1074]) to [1023]; what rounds to [2 ^ 1024] or
    beyond is an infinity. *)
Definition binary64 (x : Q) : number :=
  let n := Z.abs (Qnum x) in
  let d := Zpos (Qden x) in
  let negative := (Qnum x <? 0)%Z in
  if (n =? 0)%Z then Finite 0
  else
    let e := exponentOf n d in
    let ulp := (Z.max e (-1022) - 52)%Z in
    let m := if (0 <=? ulp)%Z then roundHalfEven n (d * 2 ^ ulp)
             else roundHalfEven (n * 2 ^ (- ulp)) d in
    if (1023 <? e)%Z || (2 ^ (1024 - ulp) <=? m)%Z
    then if negative then NegInfinity else Infinity
    else
      let s := if negative then (- m)%Z else m in
      Finite (Qred (if (0 <=? ulp)%Z then inject_Z (s * 2 ^ ulp)
                    else Qmake s (Z.to_pos (2 ^ (- ulp))))).

(** [a * b] *)
Definition num_mul (a b : number) : number :=
  match a, b with
  | NaN, _ | _, NaN => NaN
  | Finite x, Finite y => binary64 (x * y)
  | _, _ =>
      match num_sign a, num_sign b with
      | Eq, _ | _, Eq => NaN
      | Gt, Gt | Lt, Lt => Infinity
      | _, _ => NegInfinity
      end
  end.

(** [a + b] *)
Definition num_add (a b : number) : number :=
  match a, b with
  | NaN, _ | _, NaN => NaN
  | Finite x, Finite y => binary64 (x + y)
  | Infinity, NegInfinity | NegInfinity, Infinity => NaN
  | Infinity, _ | _, Infinity => Infinity
  | NegInfinity, _ | _, NegInfinity => NegInfinity
  end.

(** [o || d] where [o] is an optional numeric option of the configuration. *)
Definition num_or (o : option number) (d : number) : number :=
  match o with
  | Some n => if num_truthy n then n else d
  | None => d
  end.

(** ** JavaScript values

    The messages published on a diagnostics channel are arbitrary data.  An
    object is the finite map of its own enumerable properties. *)

Inductive jsval : Type :=
| JUndefined
| JNull
| JBool (b : bool)
| JNum (n : number)
| JStr (s : string)
| JArr (items : list jsval)
| JObj (props : gmap string jsval).

Inductive jstype : Type :=
| TUndefined | TObject | TBoolean | TNumber | TString.

Global Instance jstype_eq_dec : EqDecision jstype.
Proof. solve_decision. Defined.

(** [typeof v]; note [typeof null === "object"]. *)
Definition typeof (v : jsval) : jstype :=
  match v with
  | JUndefined => TUndefined
  | JNull => TObject
  | JBool _ => TBoolean
  | JNum _ => TNumber
  | JStr _ => TString
  | JArr _ => TObject
  | JObj _ => TObject
  end.

Definition indexed {A} (l : list A) : list (string * A) :=
  imap (λ i x, (pretty i, x)) l.

Fixpoint chars (s : string) : list string :=
  match s with
  | EmptyString => []
  | String c s' => String c EmptyString :: chars s'
  end.

(** The own enumerable properties of a value, as object spread [{...v}]
    copies them: the entries of an object, the indices of an array or of a
    string, nothing for [null], [undefined], booleans and numbers. *)
Definition ownProps (v : jsval) : gmap string jsval :=
  match v with
  | JObj props => props
  | JArr items => list_to_map (indexed items)
  | JStr s => list_to_map (indexed (JStr <$> chars s))
  | _ => ∅
  end.

(** [{...base, ...v}]: the properties of [v] are written over [base]. *)
Definition spreadOver (base : gmap string jsval) (v : jsval) : gmap string jsval :=
  ownProps v ∪ base.

(** [k in v], for an object or array [v] and the property names this program
    asks about (none of them is [length] or inherited). *)
Definition js_in (k : string) (v : jsval) : bool :=
  bool_decide (is_Some (ownProps v !! k)).

(** [v.k] *)
Definition js_get (k : string) (v : jsval) : jsval :=
  default JUndefined (ownProps v !! k).

(** ** Metric types *)

(** Modelled from the spec: the enum [MetricType] of [./types], which is not
    part of the sources at hand.  Its members are the three metric types of
    the specification; the code names [MetricType.COUNT] and
    [MetricType.HISTOGRAM]. *)
Inductive MetricType : Type := COUNT | GAUGE | HISTOGRAM.

Global Instance MetricType_eq_dec : EqDecision MetricType.
Proof. solve_decision. Defined.

Definition MetricType_members : list MetricType := [COUNT; GAUGE; HISTOGRAM].

(** ** Trace items, as [@cloudflare/workers-types] declares them *)

Record DiagnosticsChannelEvent : Type := {
  dce_channel : string;
  dce_message : jsval;
  dce_timestamp : number;
}.

Record ScriptVersion : Type := {
  sv_id : option string;
}.

Record TraceItem : Type := {
  ti_event : jsval;
  ti_scriptName : option string;
  ti_executionModel : string;
  ti_outcome : string;
  ti_scriptVersion : option ScriptVersion;
  ti_cpuTime : number;
  ti_wallTime : number;
  ti_eventTimestamp : option number;
  ti_diagnosticsChannelEvents : list DiagnosticsChannelEvent;
}.

(** ** What the module imports from files that are not part of the sources

    [METRICS_CHANNEL_NAME] and the string values of [MetricType] come from
    [./types], [getEventTrigger] from [./utils/cloudflare].  [Date_now n] is
    the reading of the [n]-th call of [Date.now()].  [aggregationKey] and
    [resolveHistogram] are the key serialisation and the numeric resolution
    of histograms inside [./metricsDb]. *)
Class Host : Type := {
  METRICS_CHANNEL_NAME : string;
  MetricType_value : MetricType → string;
  getEventTrigger : TraceItem → jsval;
  Date_now : nat → number;
  aggregationKey : MetricType → string → gmap string jsval → string;
  resolveHistogram : jsval → list number → list (string * number);
}.

(** ** The collaborators of the class *)

(** What was thrown, or what a promise was rejected with: an [Error] object
    with its [message], or any other value with the string [String(reason)]
    gives. *)
Inductive Reason : Type :=
| ErrorObject (message : string)
| ThrownValue (asString : string).

(** A sink is an external object with one method, [sendMetrics].  A call of
    it either returns a promise ([Sink]; an [async sendMetrics] as in
    [DatadogMetricSink] always does, and a failure inside it is a rejection
    of that promise), or throws before it has returned anything
    ([ThrowingSink], a [sendMetrics] that is not [async]); which of the two
    is taken as a property of the sink.  The embedding keeps the identity
    of the sink; how a returned promise settles is an input of the step
    that resumes the flush. *)
Inductive MetricSink : Type :=
| Sink (name : string)
| ThrowingSink (name : string) (thrown : Reason).

Inductive PromiseSettledResult : Type :=
| Fulfilled
| Rejected (reason : Reason).

Section MetricsTail.
Context `{Host}.

(** *** The metrics store *)

(** Modelled from the spec: a metric event as the store reads it (section 3,
    Metric Event). *)
Record MetricEvent : Type := {
  me_type : MetricType;
  me_name : string;
  me_value : number;
  me_tags : gmap string jsval;
  me_timestamp : number;
  me_options : jsval;
}.

(** Modelled from the spec: the accumulator of one aggregation key (section
    3, Aggregated Metric). *)
Record AggregatedMetric : Type := {
  am_type : MetricType;
  am_name : string;
  am_tags : gmap string jsval;
  am_firstSeen : number;
  am_combined : list number;
  am_sampleCount : nat;
  am_options : jsval;
}.

(** Modelled from the spec: one exported entry, value fields resolved
    (section 3, Exported Metric Payload); the type is declared in [./types]. *)
Record ExportedMetricPayload : Type := {
  emp_type : MetricType;
  emp_name : string;
  emp_tags : gmap string jsval;
  emp_timestamp : number;
  emp_values : list (string * number);
}.

Abbreviation MetricsDb := (gmap string AggregatedMetric).

(** The member of [MetricType] a value of a [type] field stands for. *)
Definition parseMetricType (v : jsval) : option MetricType :=
  match v with
  | JStr s => head (filter (λ t, MetricType_value t = s) MetricType_members)
  | _ => None
  end.

(** Modelled from the spec: the structural check of the store on the event it
    is handed (missing required fields, unrecognised type, non numeric
    value).  [./metricsDb] is not part of the sources. *)
Definition readEvent (payload : jsval) : option MetricEvent :=
  match parseMetricType (js_get "type" payload),
        js_get "name" payload, js_get "value" payload,
        js_get "tags" payload, js_get "timestamp" payload with
  | Some t, JStr name, JNum value, JObj tags, JNum timestamp =>
      Some {| me_type := t; me_name := name; me_value := value;
              me_tags := tags; me_timestamp := timestamp;
              me_options := js_get "options" payload |}
  | _, _, _, _, _ => None
  end.

(** Modelled from the spec: the first sample of a key (section 3, Aggregated
    Metric). *)
Definition firstSample (e : MetricEvent) : AggregatedMetric :=
  {| am_type := me_type e; am_name := me_name e; am_tags := me_tags e;
     am_firstSeen := me_timestamp e; am_combined := [me_value e];
     am_sampleCount := 1; am_options := me_options e |}.

(** Modelled from the spec: the combination rule by type (section 3): a count
    sums, a gauge keeps the most recently observed value, a histogram keeps
    every raw sample. *)
Definition combine (a : AggregatedMetric) (e : MetricEvent) : AggregatedMetric :=
  {| am_type := am_type a; am_name := am_name a; am_tags := am_tags a;
     am_firstSeen := am_firstSeen a;
     am_combined :=
       match am_type a with
       | COUNT => [foldr num_add (me_value e) (am_combined a)]
       | GAUGE => [me_value e]
       | HISTOGRAM => am_combined a ++ [me_value e]
       end;
     am_sampleCount := S (am_sampleCount a);
     am_options := am_options a |}.

(** Modelled from the spec: [MetricsDb.storeMetric] (section 4.1): an invalid
    event leaves the store as it is; a valid one is inserted under its
    aggregation key or combined with the entry of that key. *)
Definition storeMetric (payload : jsval) (db : MetricsDb) : MetricsDb :=
  match readEvent payload with
  | None => db
  | Some e =>
      let key := aggregationKey (me_type e) (me_name e) (me_tags e) in
      match db !! key with
      | None => <[key := firstSample e]> db
      | Some a => <[key := combine a e]> db
      end
  end.

(** Modelled from the spec: [MetricsDb.getMetricCount] (section 4.1), the
    number of distinct keys. *)
Definition getMetricCount (db : MetricsDb) : nat := size db.

(** Modelled from the spec: one exported entry per aggregated metric, value
    fields resolved (section 3, Exported Metric Payload). *)
Definition exportMetric (a : AggregatedMetric) : ExportedMetricPayload :=
  {| emp_type := am_type a; emp_name := am_name a; emp_tags := am_tags a;
     emp_timestamp := am_firstSeen a;
     emp_values :=
       match am_type a with
       | HISTOGRAM => resolveHistogram (am_options a) (am_combined a)
       | _ => (λ v, ("value", v)) <$> am_combined a
       end |}.

(** Modelled from the spec: [MetricsDb.toMetricPayloads] (section 4.1,
    [toExportedPayloads]). *)
Definition toMetricPayloads (db : MetricsDb) : list ExportedMetricPayload :=
  exportMetric <$> (map_to_list db).*2.

(** Modelled from the spec: [MetricsDb.clearAll] (section 4.1) empties the
    store. *)
Definition clearAll (db : MetricsDb) : MetricsDb := ∅.

(** *** The calls a step makes, in call order *)

Inductive Call : Type :=
| StoreMetric (payload : jsval)
| ConsoleWarn (message : jsval)
| ToMetricPayloads (items : list ExportedMetricPayload)
| ClearAll
| SendMetrics (sink : MetricSink) (items : list ExportedMetricPayload)
| SchedulerWait (localFlushId : N) (ms : number)
| ConsoleError (text : string)
| ConsoleErrorWith (text : string) (error : Reason).

(** *** The object and the tasks around it *)

Record DefaultMetricsOptions : Type := {
  opt_cpuTime : option bool;
  opt_wallTime : option bool;
  opt_workersInvocation : option bool;
}.

Record MetricTailOptions : Type := {
  opt_sinks : list MetricSink;
  opt_defaultMetrics : option DefaultMetricsOptions;
  opt_maxBufferSize : option number;
  opt_maxBufferDuration : option number;
}.

Record DefaultMetricsEnabled : Type := {
  cpuTime : bool;
  wallTime : bool;
  workersInvocation : bool;
}.

(** The private fields of [MetricsTail].  [flushId] counts up from [0] by
    one; a double counts exactly up to [2^53], so it is carried as [N]. *)
Record MetricsTail : Type := {
  metricSinks : list MetricSink;
  maxBufferSize : number;
  maxBufferDuration : number;
  flushId : N;
  metrics : MetricsDb;
  flushScheduled : bool;
  defaultMetricsEnabled : DefaultMetricsEnabled;
}.

(** The object together with the tasks that wait on it: [timers] holds the
    captured [localFlushId] of every [scheduleFlush] suspended in
    [scheduler.wait], [fanouts] the sinks of every [#performFlush] suspended
    in [Promise.allSettled]. *)
Record Runtime : Type := {
  this : MetricsTail;
  timers : list N;
  fanouts : list (list MetricSink);
  clockReads : nat;
  calls : list Call;
}.

Definition set_flushId (n : N) (t : MetricsTail) : MetricsTail :=
  {| metricSinks := metricSinks t; maxBufferSize := maxBufferSize t;
     maxBufferDuration := maxBufferDuration t; flushId := n;
     metrics := metrics t; flushScheduled := flushScheduled t;
     defaultMetricsEnabled := defaultMetricsEnabled t |}.

Definition set_metrics (db : MetricsDb) (t : MetricsTail) : MetricsTail :=
  {| metricSinks := metricSinks t; maxBufferSize := maxBufferSize t;
     maxBufferDuration := maxBufferDuration t; flushId := flushId t;
     metrics := db; flushScheduled := flushScheduled t;
     defaultMetricsEnabled := defaultMetricsEnabled t |}.

Definition set_flushScheduled (b : bool) (t : MetricsTail) : MetricsTail :=
  {| metricSinks := metricSinks t; maxBufferSize := maxBufferSize t;
     maxBufferDuration := maxBufferDuration t; flushId := flushId t;
     metrics := metrics t; flushScheduled := b;
     defaultMetricsEnabled := defaultMetricsEnabled t |}.

Definition on_this (f : MetricsTail → MetricsTail) (w : Runtime) : Runtime :=
  {| this := f (this w); timers := timers w; fanouts := fanouts w;
     clockReads := clockReads w; calls := calls w |}.

Definition set_timers (l : list N) (w : Runtime) : Runtime :=
  {| this := this w; timers := l; fanouts := fanouts w;
     clockReads := clockReads w; calls := calls w |}.

Definition set_fanouts (l : list (list MetricSink)) (w : Runtime) : Runtime :=
  {| this := this w; timers := timers w; fanouts := l;
     clockReads := clockReads w; calls := calls w |}.

Definition called (c : Call) (w : Runtime) : Runtime :=
  {| this := this w; timers := timers w; fanouts := fanouts w;
     clockReads := clockReads w; calls := calls w ++ [c] |}.

(** [Date.now()] *)
Definition readClock (w : Runtime) : number * Runtime :=
  (Date_now (clockReads w),
   {| this := this w; timers := timers w; fanouts := fanouts w;
      clockReads := S (clockReads w); calls := calls w |}).

(** [this.#metrics.storeMetric(payload)] *)
Definition do_storeMetric (payload : jsval) (w : Runtime) : Runtime :=
  called (StoreMetric payload)
    (on_this (λ t, set_metrics (storeMetric payload (metrics t)) t) w).
(** *** [constructor] *)

(** [options.defaultMetrics?.toggle !== false] *)
Definition toggle (o : option DefaultMetricsOptions)
    (field : DefaultMetricsOptions → option bool) : bool :=
  match o with
  | Some d => match field d with Some false => false | _ => true end
  | None => true
  end.

Definition constructor (options : MetricTailOptions) : MetricsTail :=
  {| metricSinks := opt_sinks options;
     maxBufferSize := num_or (opt_maxBufferSize options) (num_of_Z 100);
     maxBufferDuration :=
       Math_min (num_or (opt_maxBufferDuration options) (num_of_Z 5)) (num_of_Z 30);
     flushId := 0;
     metrics := ∅;
     flushScheduled := false;
     defaultMetricsEnabled :=
       {| cpuTime := toggle (opt_defaultMetrics options) opt_cpuTime;
          wallTime := toggle (opt_defaultMetrics options) opt_wallTime;
          workersInvocation :=
            toggle (opt_defaultMetrics options) opt_workersInvocation |} |}.

(** The runtime right after [new MetricsTail(options)]: nothing waits yet. *)
Definition boot (options : MetricTailOptions) : Runtime :=
  {| this := constructor options; timers := []; fanouts := [];
     clockReads := 0; calls := [] |}.

(** *** [isValidMetric] *)

(** [Object.values(MetricType).includes(v)] *)
Definition isMetricTypeValue (v : jsval) : bool :=
  match v with
  | JStr s => bool_decide (s ∈ MetricType_value <$> MetricType_members)
  | _ => false
  end.

Definition isNull (v : jsval) : bool :=
  match v with JNull => true | _ => false end.

Definition isValidMetric (message : jsval) : bool :=
  if isNull message
     || negb (bool_decide (typeof message = TObject))
     || negb (js_in "type" message)
     || negb (js_in "name" message)
     || negb (js_in "value" message)
     || negb (js_in "tags" message)
  then false
  else if negb (isMetricTypeValue (js_get "type" message)) then false
  else bool_decide (typeof (js_get "value" message) = TNumber)
       && bool_decide (typeof (js_get "name" message) = TString)
       && bool_decide (typeof (js_get "tags" message) = TObject).

(** *** [#addDefaultMetrics] *)

Definition histogramOptions : jsval :=
  JObj (list_to_map
    [("aggregates", JArr [JStr "max"; JStr "min"; JStr "avg"]);
     ("percentiles",
      JArr (JNum ∘ Finite <$> [1 # 2; 3 # 4; 9 # 10; 95 # 100; 99 # 100]%Q))]).

(** [traceItem.eventTimestamp || Date.now()]; the clock is read only when the
    left operand is falsy. *)
Definition eventTimestampOrNow (traceItem : TraceItem) (w : Runtime)
    : number * Runtime :=
  match ti_eventTimestamp traceItem with
  | Some n => if num_truthy n then (n, w) else readClock w
  | None => readClock w
  end.

Definition storeDefaultMetric (type : MetricType) (name : string)
    (value : number) (options : option jsval) (traceItem : TraceItem)
    (globalTags : gmap string jsval) (w : Runtime) : Runtime :=
  let '(timestamp, w) := eventTimestampOrNow traceItem w in
  let fields : list (string * jsval) :=
    ([("type", JStr (MetricType_value type)); ("name", JStr name);
      ("value", JNum value); ("tags", JObj globalTags);
      ("timestamp", JNum timestamp)]
     ++ match options with Some o => [("options", o)] | None => [] end)%list in
  do_storeMetric (JObj (list_to_map fields)) w.

Definition addDefaultMetrics (traceItem : TraceItem)
    (globalTags : gmap string jsval) (w : Runtime) : Runtime :=
  let w :=
    if cpuTime (defaultMetricsEnabled (this w))
    then storeDefaultMetric HISTOGRAM "worker.cpu_time" (ti_cpuTime traceItem)
           (Some histogramOptions) traceItem globalTags w
    else w in
  let w :=
    if wallTime (defaultMetricsEnabled (this w))
    then storeDefaultMetric HISTOGRAM "worker.wall_time" (ti_wallTime traceItem)
           (Some histogramOptions) traceItem globalTags w
    else w in
  if workersInvocation (defaultMetricsEnabled (this w))
  then storeDefaultMetric COUNT "worker.invocation" (num_of_Z 1)
         None traceItem globalTags w
  else w.

(** *** [#performFlush] *)

(** [this.#metricSinks.map((sink) => sink.sendMetrics(items))]: the sinks are
    called in order; a call that throws ends the [map], and the sinks after
    it are not called.  The result is the runtime after the calls made and
    what was thrown, if anything was. *)
Fixpoint sendToSinks (sinks : list MetricSink)
    (items : list ExportedMetricPayload) (w : Runtime)
    : Runtime * option Reason :=
  match sinks with
  | [] => (w, None)
  | sink :: rest =>
      let w := called (SendMetrics sink items) w in
      match sink with
      | Sink _ => sendToSinks rest items w
      | ThrowingSink _ thrown => (w, Some thrown)
      end
  end.

(** [#performFlush] up to its first suspension.  With a non empty snapshot
    that is [await Promise.allSettled(...)], once the array of promises is
    built: the flush then waits for all of them.  When building the array
    throws, the [catch] clause runs at once and the function ends without
    having waited for anything. *)
Definition performFlush (w : Runtime) : Runtime :=
  let items := toMetricPayloads (metrics (this w)) in
  let w := called (ToMetricPayloads items) w in
  let w := on_this (set_flushScheduled false) w in
  let w := called ClearAll (on_this (λ t, set_metrics (clearAll (metrics t)) t) w) in
  if bool_decide (length items = 0) then w
  else
    match sendToSinks (metricSinks (this w)) items w with
    | (w, None) => set_fanouts (fanouts w ++ [metricSinks (this w)]) w
    | (w, Some error) => called (ConsoleErrorWith "Error flushing batch:" error) w
    end.

Definition rejections (results : list PromiseSettledResult) : list Reason :=
  omap (λ r, match r with Rejected reason => Some reason | Fulfilled => None end)
       results.

(** [error.reason instanceof Error ? error.reason.message : String(error.reason)] *)
Definition sinkError (reason : Reason) : string :=
  match reason with
  | ErrorObject message => message
  | ThrownValue asString => asString
  end.

Definition flushErrorReport (errors : list Reason) : string :=
  "Failed to flush metrics to " +:+ pretty (length errors) +:+ " sink(s): "
    +:+ String.concat ", " (sinkError <$> errors).

(** The rest of [#performFlush], once [Promise.allSettled] has resolved with
    [results]. *)
Definition allSettled (results : list PromiseSettledResult) (w : Runtime)
    : Runtime :=
  let errors := rejections results in
  if bool_decide (0 < length errors)
  then called (ConsoleError (flushErrorReport errors)) w
  else w.

(** *** [processTraceItems] *)

Definition globalTagsOf (traceItem : TraceItem) : gmap string jsval :=
  list_to_map
    [("scriptName", from_option JStr JNull (ti_scriptName traceItem));
     ("executionModel", JStr (ti_executionModel traceItem));
     ("outcome", JStr (ti_outcome traceItem));
     ("versionId",
      from_option JStr JUndefined (ti_scriptVersion traceItem ≫= sv_id));
     ("trigger", getEventTrigger traceItem)].

(** [{ ...message, tags: { ...globalTags, ...message.tags }, timestamp }] *)
Definition taggedPayload (globalTags : gmap string jsval)
    (event : DiagnosticsChannelEvent) : jsval :=
  let message := dce_message event in
  JObj (<["timestamp" := JNum (dce_timestamp event)]>
         (<["tags" := JObj (spreadOver globalTags (js_get "tags" message))]>
           (spreadOver ∅ message))).

(** The body of [for (const event of metricEvents)]. *)
Definition processEvent (globalTags : gmap string jsval) (w : Runtime)
    (event : DiagnosticsChannelEvent) : Runtime :=
  if isValidMetric (dce_message event)
  then do_storeMetric (taggedPayload globalTags event) w
  else called (ConsoleWarn (dce_message event)) w.

(** The body of [for (const traceItem of traceItems)]. *)
Definition processTraceItem (w : Runtime) (traceItem : TraceItem) : Runtime :=
  let metricEvents :=
    filter (λ el, dce_channel el = METRICS_CHANNEL_NAME)
           (ti_diagnosticsChannelEvents traceItem) in
  let globalTags := globalTagsOf traceItem in
  let w := addDefaultMetrics traceItem globalTags w in
  foldl (processEvent globalTags) w metricEvents.

(** [this.#metrics.getMetricCount() >= this.#maxBufferSize] *)
Definition bufferFull (w : Runtime) : bool :=
  num_ge (num_of_nat (getMetricCount (metrics (this w)))) (maxBufferSize (this w)).

(** [scheduleFlush()] up to its [await scheduler.wait(...)].  A
    [scheduler.wait] that throws instead of returning a promise lands in the
    same [catch] as one whose promise rejects: it is the wait rejecting
    before anything else happens. *)
Definition scheduleFlush (w : Runtime) : Runtime :=
  let localFlushId := (flushId (this w) + 1)%N in
  let w := on_this (set_flushId localFlushId) w in
  let w := called (SchedulerWait localFlushId
                     (num_mul (maxBufferDuration (this w)) (num_of_Z 1000))) w in
  set_timers (timers w ++ [localFlushId]) w.

(** What follows the two loops of [processTraceItems]. *)
Definition afterIngest (w : Runtime) : Runtime :=
  if bufferFull w then
    let w := if flushScheduled (this w)
             then on_this (set_flushScheduled false) w else w in
    let w := on_this (λ t, set_flushId (flushId t + 1)%N t) w in
    performFlush w
  else if flushScheduled (this w) then w
  else if bool_decide (0 < getMetricCount (metrics (this w))) then
    scheduleFlush (on_this (set_flushScheduled true) w)
  else w.

Definition ingest (traceItems : list TraceItem) (w : Runtime) : Runtime :=
  foldl processTraceItem w traceItems.

Definition processTraceItems (traceItems : list TraceItem) (w : Runtime)
    : Runtime :=
  afterIngest (ingest traceItems w).

(** *** The rest of [scheduleFlush], once [scheduler.wait] has resolved *)

Definition timerElapsed (localFlushId : N) (w : Runtime) : Runtime :=
  if bool_decide (localFlushId = flushId (this w)) then performFlush w else w.

(** *** Steps and runs *)

(** What a task can resume with: a call of [processTraceItems]; the promise
    of a [scheduler.wait] resolving, or rejecting; the promise of a
    [Promise.allSettled] resolving with the outcome of every promise it was
    given. *)
Inductive Input : Type :=
| ProcessTraceItems (traceItems : list TraceItem)
| TimerElapsed (localFlushId : N)
| FanoutSettled (k : nat) (results : list PromiseSettledResult)
| WaitRejected (localFlushId : N).

Fixpoint remove_first (x : N) (l : list N) : list N :=
  match l with
  | [] => []
  | y :: l' => if bool_decide (x = y) then l' else y :: remove_first x l'
  end.

(** One step.  A wait can only resolve or reject while it is pending, and a
    fanout can only settle with one result per sink it called; any other
    input is not a step of the program and leaves the runtime as it is.  A
    wait that rejects throws inside the [try] of [scheduleFlush]; its
    [catch (error) {}] swallows that, and the task ends having done
    nothing. *)
Definition step (w : Runtime) (i : Input) : Runtime :=
  match i with
  | ProcessTraceItems traceItems => processTraceItems traceItems w
  | TimerElapsed localFlushId =>
      if bool_decide (localFlushId ∈ timers w)
      then timerElapsed localFlushId
             (set_timers (remove_first localFlushId (timers w)) w)
      else w
  | WaitRejected localFlushId =>
      if bool_decide (localFlushId ∈ timers w)
      then set_timers (remove_first localFlushId (timers w)) w
      else w
  | FanoutSettled k results =>
      match fanouts w !! k with
      | Some sinks =>
          if bool_decide (length results = length sinks)
          then allSettled results (set_fanouts (delete k (fanouts w)) w)
          else w
      | None => w
      end
  end.

Definition run (w : Runtime) (inputs : list Input) : Runtime :=
  foldl step w inputs.

(** The calls made by the step from [w] on input [i]. *)
Definition emitted (w : Runtime) (i : Input) : list Call :=
  drop (length (calls w)) (calls (step w i)).

(** ** Windows of the call trace

    The reading of the specification: the events stored since the store was
    last cleared form the current window, and the store holds exactly their
    aggregation. *)

Definition window_step (window : list jsval) (c : Call) : list jsval :=
  match c with
  | StoreMetric payload => window ++ [payload]
  | ClearAll => []
  | _ => window
  end.

Definition currentWindow (trace : list Call) : list jsval :=
  foldl window_step [] trace.

(** The payloads handed to [storeMetric] in a list of calls, in order. *)
Definition stored (l : list Call) : list jsval :=
  omap (λ c, match c with StoreMetric payload => Some payload | _ => None end) l.

Definition storeOf (window : list jsval) : MetricsDb :=
  foldl (λ db payload, storeMetric payload db) ∅ window.

Definition isSnapshot (c : Call) : Prop :=
  match c with ToMetricPayloads _ => True | _ => False end.

Definition isClear (c : Call) : Prop :=
  match c with ClearAll => True | _ => False end.

Definition isIngestCall (c : Call) : Prop :=
  match c with StoreMetric _ | ConsoleWarn _ => True | _ => False end.

Definition isSend (c : Call) : Prop :=
  match c with SendMetrics _ _ => True | _ => False end.

(** The calls of a fanout: [sendMetrics] and the log of the [catch] clause. *)
Definition isFanoutCall (c : Call) : Prop :=
  match c with SendMetrics _ _ | ConsoleErrorWith _ _ => True | _ => False end.

Global Instance isSnapshot_dec c : Decision (isSnapshot c).
Proof. destruct c; simpl; apply _. Defined.

Global Instance isSend_dec c : Decision (isSend c).
Proof. destruct c; simpl; apply _. Defined.

(** The number of flushes in a list of calls: each [#performFlush] takes
    exactly one snapshot. *)
Definition flushCount (l : list Call) : nat := length (filter isSnapshot l).

Definition sendCount (l : list Call) : nat := length (filter isSend l).

(** The sinks a fanout gets to call: all of them up to and including the
    first whose [sendMetrics] throws. *)
Fixpoint attempted (sinks : list MetricSink) : list MetricSink :=
  match sinks with
  | [] => []
  | Sink name :: rest => Sink name :: attempted rest
  | ThrowingSink name thrown :: _ => [ThrowingSink name thrown]
  end.

(** What the first sink whose [sendMetrics] throws, if there is one, throws. *)
Fixpoint thrownBy (sinks : list MetricSink) : option Reason :=
  match sinks with
  | [] => None
  | Sink _ :: rest => thrownBy rest
  | ThrowingSink _ thrown :: _ => Some thrown
  end.

(** The calls of a fanout of [items]: one [sendMetrics] per attempted sink,
    and the log of the [catch] clause when one of them threw. *)
Definition fanoutCalls (sinks : list MetricSink)
    (items : list ExportedMetricPayload) : list Call :=
  (((λ sink, SendMetrics sink items) <$> attempted sinks)
   ++ match thrownBy sinks with
      | Some error => [ConsoleErrorWith "Error flushing batch:" error]
      | None => []
      end)%list.

(** The calls of one flush of a store that exports [items]: the snapshot,
    the clear and, unless the snapshot is empty, the calls of the fanout. *)
Definition flushCalls (sinks : list MetricSink)
    (items : list ExportedMetricPayload) : list Call :=
  ([ToMetricPayloads items; ClearAll]
   ++ if bool_decide (length items = 0) then []
      else fanoutCalls sinks items)%list.

(** What a flush that exports [items] is left waiting for: the settlement
    of all the sinks, unless the snapshot was empty or a sink threw. *)
Definition awaitedBy (sinks : list MetricSink)
    (items : list ExportedMetricPayload) : list (list MetricSink) :=
  if bool_decide (length items = 0) then []
  else match thrownBy sinks with
       | Some _ => []
       | None => [sinks]
       end.

(** A trace in which the store is only ever cleared right after a snapshot of
    everything stored since the previous clear. *)
Inductive WindowTrace : list Call → Prop :=
| wt_nil : WindowTrace []
| wt_call trace c :
    WindowTrace trace → ¬ isSnapshot c → ¬ isClear c →
    WindowTrace (trace ++ [c])
| wt_flush trace :
    WindowTrace trace →
    WindowTrace
      (trace ++ [ToMetricPayloads
                   (toMetricPayloads (storeOf (currentWindow trace)));
                 ClearAll]).

(** The store of the runtime is the aggregation of the current window of its
    trace. *)
Definition StoreIsWindow (w : Runtime) : Prop :=
  metrics (this w) = storeOf (currentWindow (calls w)) ∧ WindowTrace (calls w).

(** A run in which no call of [processTraceItems] finds the buffer full. *)
Fixpoint belowThreshold (w : Runtime) (inputs : list Input) : Prop :=
  match inputs with
  | [] => True
  | i :: rest =>
      match i with
      | ProcessTraceItems traceItems => bufferFull (ingest traceItems w) = false
      | _ => True
      end
      ∧ belowThreshold (step w i) rest
  end.

(** At most one timer is pending, it carries the live generation, and idle
    means none. *)
Definition OneTimer (w : Runtime) : Prop :=
  (timers w = [] ∨ timers w = [flushId (this w)])
  ∧ (flushScheduled (this w) = false → timers w = []).

(** Scheduled means exactly one pending timer, which carries the live
    generation; idle means none. *)
Definition ExactlyOneTimer (w : Runtime) : Prop :=
  timers w = if flushScheduled (this w) then [flushId (this w)] else [].

(** No wait of the run was rejected. *)
Definition noWaitRejected (inputs : list Input) : Prop :=
  ∀ g, WaitRejected g ∉ inputs.

(** All pending timers carry a generation that was current at some point. *)
Definition TimersBounded (w : Runtime) : Prop :=
  Forall (λ g, (g ≤ flushId (this w))%N) (timers w).

(** [Ingested w w']: from [w] to [w'] only the store and the clock changed,
    the calls made are stores and warnings, and the store took exactly the
    payloads of the stores, in order. *)
Record Ingested (w w' : Runtime) : Prop := {
  ing_calls : ∃ l, calls w' = (calls w ++ l)%list ∧ Forall isIngestCall l ∧
                metrics (this w') =
                  foldl (λ db p, storeMetric p db) (metrics (this w)) (stored l);
  ing_this : this w' = set_metrics (metrics (this w')) (this w);
  ing_timers : timers w' = timers w;
  ing_fanouts : fanouts w' = fanouts w;
}.

End MetricsTail.

(** ** Ingestion and scheduling, beyond single steps *)

Section Bookkeeping.
Context `{Host}.

(** [metricEvents] of [processTraceItems]: the events of a trace item that
    were published on the metrics channel. *)
Definition metricEventsOf (traceItem : TraceItem)
    : list DiagnosticsChannelEvent :=
  filter (λ el, dce_channel el = METRICS_CHANNEL_NAME)
         (ti_diagnosticsChannelEvents traceItem).

(** How many of the three default metrics are enabled. *)
Definition enabledCount (t : MetricsTail) : nat :=
  (if cpuTime (defaultMetricsEnabled t) then 1 else 0)
  + (if wallTime (defaultMetricsEnabled t) then 1 else 0)
  + (if workersInvocation (defaultMetricsEnabled t) then 1 else 0).

(** The names of the enabled default metrics, in the order
    [#addDefaultMetrics] stores them. *)
Definition enabledNames (t : MetricsTail) : list string :=
  ((if cpuTime (defaultMetricsEnabled t) then ["worker.cpu_time"] else [])
   ++ (if wallTime (defaultMetricsEnabled t) then ["worker.wall_time"] else [])
   ++ (if workersInvocation (defaultMetricsEnabled t)
       then ["worker.invocation"] else []))%list.

(** The event time a default metric can use: [traceItem.eventTimestamp]
    when it is truthy. *)
Definition eventTimeOf (traceItem : TraceItem) : option number :=
  match ti_eventTimestamp traceItem with
  | Some n => if num_truthy n then Some n else None
  | None => None
  end.

(** What the loop body of [processTraceItems] does with one event of the
    metrics channel. *)
Definition callOf (globalTags : gmap string jsval)
    (event : DiagnosticsChannelEvent) : Call :=
  if isValidMetric (dce_message event)
  then StoreMetric (taggedPayload globalTags event)
  else ConsoleWarn (dce_message event).

(** The messages handed to [console.warn] in a list of calls, in order. *)
Definition warned (l : list Call) : list jsval :=
  omap (λ c, match c with ConsoleWarn message => Some message | _ => None end) l.

(** The snapshots taken in a list of calls, in order. *)
Definition snapshotsOf (l : list Call) : list (list ExportedMetricPayload) :=
  omap (λ c, match c with ToMetricPayloads items => Some items | _ => None end) l.

(** The [sendMetrics] calls in a list of calls, in order. *)
Definition sentBatches (l : list Call)
    : list (MetricSink * list ExportedMetricPayload) :=
  omap (λ c, match c with
             | SendMetrics sink items => Some (sink, items)
             | _ => None
             end) l.

(** The waits requested from the scheduler in a list of calls, in order. *)
Definition waitsOf (l : list Call) : list number :=
  omap (λ c, match c with SchedulerWait _ ms => Some ms | _ => None end) l.

(** [DefaultsStored]: from [w] to [w'] the payloads were stored, one call
    each, with the given names, the tags of the trace, and the time of the
    trace's event or else successive readings of the clock. *)
Definition DefaultsStored (traceItem : TraceItem)
    (globalTags : gmap string jsval) (w w' : Runtime)
    (names : list string) (payloads : list jsval) : Prop :=
  calls w' = (calls w ++ (StoreMetric <$> payloads))%list
  ∧ js_get "name" <$> payloads = JStr <$> names
  ∧ Forall (λ p, js_get "tags" p = JObj globalTags) payloads
  ∧ (∀ k p, payloads !! k = Some p →
       js_get "timestamp" p =
         JNum (default (Date_now (clockReads w + k)%nat) (eventTimeOf traceItem)))
  ∧ clockReads w' =
      (clockReads w + match eventTimeOf traceItem with
                    | Some _ => 0
                    | None => length payloads
                    end)%nat
  ∧ defaultMetricsEnabled (this w') = defaultMetricsEnabled (this w)
  ∧ timers w' = timers w ∧ fanouts w' = fanouts w.

(** What every runtime reached from the constructor satisfies: pending
    timers are distinct and none is ahead of the live generation; a flush
    is scheduled while a timer of the live generation is pending; a non
    empty buffer has a flush scheduled and is below the threshold; and the
    flushes taken so far, plus the scheduled one, number at most the
    generation. *)
Record SchedulerInv (w : Runtime) : Prop := {
  inv_nodup : NoDup (timers w);
  inv_bounded : TimersBounded w;
  inv_live : flushId (this w) ∈ timers w → flushScheduled (this w) = true;
  inv_buffered :
    0 < getMetricCount (metrics (this w)) →
    flushScheduled (this w) = true ∧ bufferFull w = false;
  inv_generations :
    (flushCount (calls w) + (if flushScheduled (this w) then 1 else 0)
     ≤ N.to_nat (flushId (this w)))%nat;
}.

(** A flush counts as scheduled but no pending timer carries the live
    generation. *)
Definition Stranded (w : Runtime) : Prop :=
  flushScheduled (this w) = true ∧ flushId (this w) ∉ timers w.

(** Every entry of the store sits under the aggregation key of its own
    type, name and tags. *)
Definition KeyedStore (db : gmap string AggregatedMetric) : Prop :=
  ∀ key a, db !! key = Some a →
    aggregationKey (am_type a) (am_name a) (am_tags a) = key.

End Bookkeeping.

(** ** [DatadogMetricSink]

    The sink has no state besides its options, so a call of [sendMetrics] is
    a function of the payloads and of what the network answers.  The body of
    the request is [JSON.stringify({ series: payloads.map(transformMetric) })];
    the embedding carries the payloads it is computed from
    ([transformMetric] reads the payload type of [./types], which is not
    part of the sources, and is not embedded). *)

Module Datadog.

(** The three entries of [env] the constructor reads. *)
Record Env : Type := {
  DD_API_KEY : option string;
  DATADOG_API_KEY : option string;
  DD_SITE : option string;
}.

Record DatadogMetricSinkOptions : Type := {
  opt_apiKey : option string;
  opt_site : option string;
  opt_endpoint : option string;
}.

(** [this.options]; [apiKey] is [undefined] or empty when no key was found. *)
Record DatadogMetricSink : Type := {
  apiKey : option string;
  site : string;
  endpoint : string;
}.

Inductive Call : Type :=
| ConsoleError (text : string)
| ConsoleWarn (text : string)
| Fetch (url : string) (key : string) (series : list ExportedMetricPayload).

(** [!!s] for an optional string: [undefined] and [""] are falsy. *)
Definition truthy (o : option string) : bool :=
  match o with
  | Some s => negb (String.eqb s "")
  | None => false
  end.

(** [a || b] *)
Definition or (a b : option string) : option string :=
  if truthy a then a else b.

(** [a || d] for a string literal [d] *)
Definition orDefault (a : option string) (d : string) : string :=
  match a with
  | Some s => if String.eqb s "" then d else s
  | None => d
  end.

(** [!apiKey || apiKey.length === 0] *)
Definition keyMissing (key : option string) : bool :=
  negb (truthy key) || match key with
                       | Some s => bool_decide (String.length s = 0)
                       | None => false
                       end.

Definition keyNotFound : string :=
  "Datadog API key was not found. Provide it in the sink options or set the DD_API_KEY environment variable. Metrics will not be sent to Datadog.".

(** [new DatadogMetricSink(options)]: the sink and the calls made. *)
Definition constructor (env : Env) (options : option DatadogMetricSinkOptions)
    : DatadogMetricSink * list Call :=
  let key := or (or (options ≫= opt_apiKey) (DD_API_KEY env))
                (DATADOG_API_KEY env) in
  let site := orDefault (or (options ≫= opt_site) (DD_SITE env))
                        "datadoghq.com" in
  let endpoint := orDefault (options ≫= opt_endpoint)
                            ("https://api." +:+ site +:+ "/api/v1/series") in
  ({| apiKey := key; site := site; endpoint := endpoint |},
   if keyMissing key then [ConsoleError keyNotFound] else []).

(** What [response.text()] settles with. *)
Inductive TextResult : Type :=
| TextResolved (text : string)
| TextRejected (reason : Reason).

(** What [fetch] settles with: a response with its [ok], [status] and body
    text, or a rejection. *)
Inductive FetchResult : Type :=
| FetchResolved (ok : bool) (status : N) (text : TextResult)
| FetchRejected (reason : Reason).

Inductive Completion : Type :=
| Returned
| Thrown (reason : Reason).

(** [sendToDatadog(metrics)] *)
Definition sendToDatadog (sink : DatadogMetricSink)
    (series : list ExportedMetricPayload) (network : FetchResult)
    : list Call * Completion :=
  if keyMissing (apiKey sink) then
    ([ConsoleWarn ("Datadog API key was not found. Dropping "
                   +:+ pretty (length series) +:+ " metrics.")],
     Returned)
  else
    let request := Fetch (endpoint sink) (default "" (apiKey sink)) series in
    match network with
    | FetchRejected reason => ([request], Thrown reason)
    | FetchResolved ok status text =>
        if ok then ([request], Returned)
        else
          match text with
          | TextRejected reason => ([request], Thrown reason)
          | TextResolved body =>
              ([request],
               Thrown (ErrorObject ("Datadog API error (" +:+ pretty status
                                    +:+ "): " +:+ body)))
          end
    end.

(** [sendMetrics(payloads)]: the calls made and how the returned promise
    settles. *)
Definition sendMetrics (sink : DatadogMetricSink)
    (payloads : list ExportedMetricPayload) (network : FetchResult)
    : list Call * PromiseSettledResult :=
  if bool_decide (length payloads = 0) then ([], Fulfilled)
  else
    match sendToDatadog sink payloads network with
    | (made, Returned) => (made, Fulfilled)
    | (made, Thrown error) =>
        (made,
         Rejected (ErrorObject ("Failed to send metrics to Datadog: "
                                +:+ sinkError error)))
    end.

Definition isFetch (c : Call) : Prop :=
  match c with Fetch _ _ _ => True | _ => False end.

Global Instance isFetch_dec c : Decision (isFetch c).
Proof. destruct c; simpl; apply _. Defined.

End Datadog.

(** ** A small deployment, for examples

    Two sinks, a buffer of four distinct metrics, the default metrics on.  One
    trace item without events stores the three default metrics; one more
    distinct metric fills the buffer. *)

Definition exampleTagText (v : jsval) : string :=
  match v with
  | JStr s => s
  | JNull => "null"
  | JUndefined => "undefined"
  | _ => "?"
  end.

Definition exampleHost : Host :=
  {| METRICS_CHANNEL_NAME := "metrics";
     MetricType_value :=
       λ t, match t with
            | COUNT => "COUNT" | GAUGE => "GAUGE" | HISTOGRAM => "HISTOGRAM"
            end;
     getEventTrigger := λ _, JStr "fetch";
     Date_now := λ n, num_of_nat (1000 + n);
     aggregationKey :=
       λ t name tags,
         name +:+ "|"
         +:+ String.concat ","
               ((λ kv, kv.1 +:+ "=" +:+ exampleTagText kv.2) <$> map_to_list tags);
     resolveHistogram := λ _ samples, (λ v, ("sample", v)) <$> samples |}.

Definition exampleOptions : MetricTailOptions :=
  {| opt_sinks := [Sink "datadog"; Sink "otel"];
     opt_defaultMetrics := None;
     opt_maxBufferSize := Some (num_of_Z 4);
     opt_maxBufferDuration := None |}.

(** A negative threshold and no default metrics: every call flushes, also
    with nothing stored. *)
Definition eagerOptions : MetricTailOptions :=
  {| opt_sinks := [Sink "datadog"; Sink "otel"];
     opt_defaultMetrics :=
       Some {| opt_cpuTime := Some false; opt_wallTime := Some false;
               opt_workersInvocation := Some false |};
     opt_maxBufferSize := Some (num_of_Z (-1));
     opt_maxBufferDuration := None |}.

(** A configured duration of zero seconds. *)
Definition zeroDurationOptions : MetricTailOptions :=
  {| opt_sinks := []; opt_defaultMetrics := None; opt_maxBufferSize := None;
     opt_maxBufferDuration := Some (num_of_Z 0) |}.

Definition exampleMessage (name : string) (tags : jsval) : jsval :=
  JObj (list_to_map
    [("type", JStr "COUNT"); ("name", JStr name);
     ("value", JNum (num_of_Z 1)); ("tags", tags)]).

Definition exampleEvent (message : jsval) : DiagnosticsChannelEvent :=
  {| dce_channel := "metrics"; dce_message := message;
     dce_timestamp := num_of_Z 9 |}.

Definition exampleItem (events : list DiagnosticsChannelEvent) : TraceItem :=
  {| ti_event := JNull; ti_scriptName := Some "worker";
     ti_executionModel := "stateless"; ti_outcome := "ok";
     ti_scriptVersion := None; ti_cpuTime := num_of_Z 3;
     ti_wallTime := num_of_Z 7; ti_eventTimestamp := None;
     ti_diagnosticsChannelEvents := events |}.

(** The first batch: one trace item without events. *)
Definition exampleBatchA : list TraceItem := [exampleItem []].

(** The second batch: one trace item with one more metric. *)
Definition exampleBatchB : list TraceItem :=
  [exampleItem [exampleEvent (exampleMessage "requests" (JObj ∅))]].


(** An environment without any Datadog key, the sink built from it, and a
    network that is down. *)
Definition noKeyEnv : Datadog.Env :=
  {| Datadog.DD_API_KEY := None; Datadog.DATADOG_API_KEY := Some "";
     Datadog.DD_SITE := None |}.

Definition keylessSink : Datadog.DatadogMetricSink :=
  (Datadog.constructor noKeyEnv None).1.

Definition offline (sink : Datadog.DatadogMetricSink) : Datadog.FetchResult :=
  Datadog.FetchRejected (ErrorObject "offline").

(** A message whose own [outcome] tag collides with the trace's, and a
    batch that brings it. *)
Definition collidingMessage : jsval :=
  exampleMessage "requests"
    (JObj (list_to_map [("outcome", JStr "mine"); ("route", JStr "/")])).

Definition collidingBatch : list TraceItem :=
  [exampleItem [exampleEvent collidingMessage]].

(** The example deployment with a first sink whose [sendMetrics] throws. *)
Definition throwingOptions : MetricTailOptions :=
  {| opt_sinks := [ThrowingSink "first" (ErrorObject "boom"); Sink "second"];
     opt_defaultMetrics := None;
     opt_maxBufferSize := Some (num_of_Z 4);
     opt_maxBufferDuration := None |}.

(** ** Properties of the arithmetic *)

Section NumberProperties.
Local Open Scope Z_scope.

Lemma roundHalfEven_nonneg p r : 0 < r → 0 ≤ p → 0 ≤ roundHalfEven p r.
Proof.
  intros Hr Hp. unfold roundHalfEven.
  pose proof (Z.div_pos p r Hp Hr).
  repeat case_match; lia.
Qed.

(** Rounding to the nearest integer does not step over an integer. *)
Lemma roundHalfEven_le p r K : 0 < r → p ≤ K * r → roundHalfEven p r ≤ K.
Proof.
  intros Hr Hle. unfold roundHalfEven.
  pose proof (Z.div_mod p r ltac:(lia)) as Hdm.
  pose proof (Z.mod_pos_bound p r Hr) as Hm.
  assert (p / r ≤ K) by nia.
  destruct (2 * (p mod r) <? r) eqn:H1; [done|].
  apply Z.ltb_ge in H1.
  assert (p / r + 1 ≤ K) by nia.
  repeat case_match; lia.
Qed.

(** [30000] is a double, so a real number that is at most [30000] rounds to
    a double that is at most [30000]. *)
Lemma binary64_at_most_30000 (x : Q) :
  (x <= inject_Z 30000)%Q → num_le (binary64 x) (num_of_Z 30000) = true.
Proof.
  intros Hx. unfold Qle in Hx. simpl in Hx.
  unfold binary64.
  set (n := Z.abs (Qnum x)). set (d := Zpos (Qden x)) in *.
  assert (0 < d) as Hd by (unfold d; lia).
  destruct (n =? 0) eqn:Hn0; [done|]. apply Z.eqb_neq in Hn0.
  set (e := exponentOf n d). set (ulp := Z.max e (-1022) - 52).
  set (m := if 0 <=? ulp then roundHalfEven n (d * 2 ^ ulp)
            else roundHalfEven (n * 2 ^ (- ulp)) d).
  destruct (Qnum x <? 0) eqn:Hneg.
  - destruct (_ || _); [done|].
    assert (0 ≤ m) as Hm.
    { unfold m. destruct (0 <=? ulp) eqn:Hu.
      - apply Z.leb_le in Hu. apply roundHalfEven_nonneg; [|lia].
        pose proof (Z.pow_pos_nonneg 2 ulp). lia.
      - apply Z.leb_gt in Hu. apply roundHalfEven_nonneg; [done|].
        pose proof (Z.pow_pos_nonneg 2 (- ulp)). nia. }
    unfold num_le, num_of_Z. apply Qle_bool_iff. rewrite Qred_correct.
    destruct (0 <=? ulp) eqn:Hu; unfold Qle; simpl.
    + apply Z.leb_le in Hu. pose proof (Z.pow_pos_nonneg 2 ulp). nia.
    + lia.
  - apply Z.ltb_ge in Hneg.
    assert (n = Qnum x) as Hn by (unfold n; lia).
    assert (n ≤ 30000 * d) as Hle by lia.
    assert (e ≤ 15) as He.
    { unfold e, exponentOf.
      pose proof (Z.log2_le_mono n (30000 * d) Hle).
      pose proof (Z.log2_mul_above 30000 d ltac:(lia) ltac:(lia)) as Hab.
      change (Z.log2 30000) with 14 in Hab.
      destruct (reaches _ _ _); lia. }
    assert (ulp < 0) as Hu by (unfold ulp; lia).
    assert (0 < 2 ^ (- ulp)) as Hpow by (apply Z.pow_pos_nonneg; lia).
    assert (m = roundHalfEven (n * 2 ^ (- ulp)) d) as Hm
      by (unfold m; by rewrite (proj2 (Z.leb_gt 0 ulp) Hu)).
    assert (m ≤ 30000 * 2 ^ (- ulp)) as Hbound.
    { rewrite Hm. apply roundHalfEven_le; [done|]. nia. }
    assert ((2 ^ (1024 - ulp) <=? m) = false) as Hfit.
    { apply Z.leb_gt.
      replace (1024 - ulp) with (1024 + - ulp) by lia.
      rewrite Z.pow_add_r by lia.
      assert (30000 < 2 ^ 1024) by (by apply Z.ltb_lt).
      nia. }
    rewrite (proj2 (Z.ltb_ge 1023 e)) by lia.
    rewrite Hfit, (proj2 (Z.leb_gt 0 ulp) Hu). simpl.
    apply Qle_bool_iff. rewrite Qred_correct.
    unfold Qle. simpl. rewrite Z2Pos.id by done. lia.
Qed.

(** A duration of at most [30] seconds is at most [30000] milliseconds,
    also after the product has been rounded. *)
Lemma product_at_most_30000 (duration : number) :
  num_le duration (num_of_Z 30) = true →
  num_le (num_mul duration (num_of_Z 1000)) (num_of_Z 30000) = true.
Proof.
  destruct duration as [q| | |]; try done.
  intros Hq. unfold num_mul, num_of_Z. apply binary64_at_most_30000.
  apply Qle_bool_iff in Hq.
  apply Qle_trans with (inject_Z 30 * inject_Z 1000)%Q.
  - apply Qmult_le_compat_r; [done|]. by apply Qle_bool_iff.
  - by apply Qle_bool_iff.
Qed.

End NumberProperties.

(** ** Properties *)

Section Properties.
Context `{Host}.
Local Open Scope list_scope.

Abbreviation MetricsDb := (gmap string AggregatedMetric).

(** *** How the pieces of a step change the runtime *)

Lemma Ingested_refl w : Ingested w w.
Proof.
  split; try done.
  - exists []. by rewrite app_nil_r.
  - by destruct w as [[] ? ? ? ?].
Qed.

Lemma Ingested_trans w1 w2 w3 : Ingested w1 w2 → Ingested w2 w3 → Ingested w1 w3.
Proof.
  intros [(l1 & Hc1 & Hf1 & Hm1) Ht1 Hti1 Hfa1] [(l2 & Hc2 & Hf2 & Hm2) Ht2 Hti2 Hfa2].
  split.
  - exists (l1 ++ l2). rewrite Hc2, Hc1, <-(assoc_L (++)). split; [done|].
    split; [by apply Forall_app|].
    rewrite Hm2, Hm1. unfold stored. by rewrite omap_app, foldl_app.
  - rewrite Ht2 at 1. rewrite Ht1. done.
  - congruence.
  - congruence.
Qed.

Lemma Ingested_store payload w : Ingested w (do_storeMetric payload w).
Proof.
  split; try done.
  exists [StoreMetric payload]. simpl. repeat split; auto.
  repeat constructor.
Qed.

Lemma Ingested_warn message w : Ingested w (called (ConsoleWarn message) w).
Proof.
  split; try done.
  - exists [ConsoleWarn message]. simpl. repeat split; auto.
    repeat constructor.
  - by destruct w as [[] ? ? ? ?].
Qed.

Lemma Ingested_clock traceItem w : Ingested w (eventTimestampOrNow traceItem w).2.
Proof.
  unfold eventTimestampOrNow.
  assert (Ingested w (readClock w).2).
  { split; try done.
    - exists []. simpl. by rewrite app_nil_r.
    - by destruct w as [[] ? ? ? ?]. }
  destruct (ti_eventTimestamp traceItem) as [n|]; [|done].
  destruct (num_truthy n); [apply Ingested_refl|done].
Qed.

Lemma Ingested_default type name value options traceItem globalTags w :
  Ingested w (storeDefaultMetric type name value options traceItem globalTags w).
Proof.
  unfold storeDefaultMetric.
  pose proof (Ingested_clock traceItem w) as Hc.
  destruct (eventTimestampOrNow traceItem w) as [timestamp w'].
  eapply Ingested_trans; [exact Hc|apply Ingested_store].
Qed.

Lemma Ingested_addDefaultMetrics traceItem globalTags w :
  Ingested w (addDefaultMetrics traceItem globalTags w).
Proof.
  unfold addDefaultMetrics.
  repeat match goal with
  | |- context [if ?b then _ else _] => destruct b
  end;
  repeat (first [apply Ingested_refl | apply Ingested_default
                | eapply Ingested_trans; [|apply Ingested_default]]).
Qed.

Lemma Ingested_processEvent globalTags w event :
  Ingested w (processEvent globalTags w event).
Proof.
  unfold processEvent.
  destruct (isValidMetric _); [apply Ingested_store|apply Ingested_warn].
Qed.

Lemma Ingested_foldl {A} (f : Runtime → A → Runtime) (l : list A) w :
  (∀ w x, Ingested w (f w x)) → Ingested w (foldl f w l).
Proof.
  intros Hf. revert w. induction l as [|x l IH]; intros w; simpl.
  - apply Ingested_refl.
  - eapply Ingested_trans; [apply Hf|apply IH].
Qed.

Lemma Ingested_processTraceItem w traceItem :
  Ingested w (processTraceItem w traceItem).
Proof.
  unfold processTraceItem.
  eapply Ingested_trans; [apply Ingested_addDefaultMetrics|].
  apply Ingested_foldl, Ingested_processEvent.
Qed.

Lemma Ingested_ingest traceItems w : Ingested w (ingest traceItems w).
Proof. apply Ingested_foldl, Ingested_processTraceItem. Qed.

Ltac rt_simpl :=
  cbn [this timers fanouts calls clockReads called on_this set_timers
       set_fanouts set_flushId set_metrics set_flushScheduled flushId metrics
       flushScheduled metricSinks maxBufferSize maxBufferDuration
       defaultMetricsEnabled fst snd] in *.

Lemma sendToSinks_spec items sinks w :
  calls (sendToSinks sinks items w).1 =
    calls w ++ ((λ sink, SendMetrics sink items) <$> attempted sinks)
  ∧ this (sendToSinks sinks items w).1 = this w
  ∧ timers (sendToSinks sinks items w).1 = timers w
  ∧ fanouts (sendToSinks sinks items w).1 = fanouts w
  ∧ (sendToSinks sinks items w).2 = thrownBy sinks.
Proof.
  revert w. induction sinks as [|sink sinks IH]; intros w; simpl.
  - by rewrite app_nil_r.
  - destruct sink as [name|name thrown]; simpl.
    + destruct (IH (called (SendMetrics (Sink name) items) w))
        as (-> & -> & -> & -> & ->).
      rt_simpl. by rewrite <-(assoc_L (++)).
    + done.
Qed.

Lemma performFlush_spec w :
  let items := toMetricPayloads (metrics (this w)) in
  calls (performFlush w) = calls w ++ flushCalls (metricSinks (this w)) items
  ∧ this (performFlush w) = set_flushScheduled false (set_metrics ∅ (this w))
  ∧ timers (performFlush w) = timers w
  ∧ fanouts (performFlush w) =
      fanouts w ++ awaitedBy (metricSinks (this w)) items.
Proof.
  intros items. unfold performFlush, flushCalls, fanoutCalls, awaitedBy.
  fold items.
  destruct (bool_decide (length items = 0)); rt_simpl.
  - by rewrite <-?app_assoc, ?app_nil_r.
  - match goal with |- context [sendToSinks ?l items ?w0] =>
      destruct (sendToSinks_spec items l w0) as (Hc & Ht & Hti & Hfa & Hth);
      destruct (sendToSinks l items w0) as [w1 thrown] end.
    rt_simpl. subst thrown.
    destruct (thrownBy (metricSinks (this w))) as [error|]; rt_simpl;
      rewrite Hc, Ht, ?Hti, ?Hfa; rt_simpl;
      by rewrite <-?app_assoc, ?app_nil_r.
Qed.

Lemma fanoutCalls_Forall sinks items : Forall isFanoutCall (fanoutCalls sinks items).
Proof.
  unfold fanoutCalls. apply Forall_app. split.
  - by apply Forall_fmap, Forall_true.
  - destruct (thrownBy sinks); by repeat constructor.
Qed.

(** What follows the snapshot and the clear in the calls of a flush. *)
Lemma flushCalls_tail sinks items :
  ∃ rest, flushCalls sinks items = [ToMetricPayloads items; ClearAll] ++ rest
          ∧ Forall isFanoutCall rest.
Proof.
  unfold flushCalls. eexists. split; [done|].
  case_bool_decide; [constructor|apply fanoutCalls_Forall].
Qed.

Lemma allSettled_spec results w :
  calls (allSettled results w) =
    calls w ++ (if bool_decide (0 < length (rejections results))
                then [ConsoleError (flushErrorReport (rejections results))]
                else [])
  ∧ this (allSettled results w) = this w
  ∧ timers (allSettled results w) = timers w
  ∧ fanouts (allSettled results w) = fanouts w.
Proof.
  unfold allSettled. case_bool_decide; rt_simpl; by rewrite ?app_nil_r.
Qed.

(** The three outcomes of what follows the loops of [processTraceItems]. *)
Lemma afterIngest_spec w :
  (bufferFull w = true ∧
   afterIngest w =
     performFlush (on_this (λ t, set_flushId (flushId t + 1)%N
                                   (set_flushScheduled false t)) w))
  ∨ (bufferFull w = false ∧
     (flushScheduled (this w) = true ∨ getMetricCount (metrics (this w)) = 0) ∧
     afterIngest w = w)
  ∨ (bufferFull w = false ∧ flushScheduled (this w) = false ∧
     0 < getMetricCount (metrics (this w)) ∧
     afterIngest w = scheduleFlush (on_this (set_flushScheduled true) w)).
Proof.
  unfold afterIngest. destruct (bufferFull w) eqn:Hfull.
  - left. split; [done|]. f_equal.
    destruct (flushScheduled (this w)) eqn:Hs; destruct w as [[] ? ? ? ?];
      rt_simpl; by subst.
  - destruct (flushScheduled (this w)) eqn:Hs; [right; left; auto|].
    case_bool_decide; [right; right; auto|].
    right; left. split; [done|]. split; [right; lia|done].
Qed.

Lemma Ingested_flushId w w' :
  Ingested w w' → flushId (this w') = flushId (this w).
Proof. intros [_ -> _ _]. done. Qed.

Lemma Ingested_flushScheduled w w' :
  Ingested w w' → flushScheduled (this w') = flushScheduled (this w).
Proof. intros [_ -> _ _]. done. Qed.

Lemma Ingested_config w w' :
  Ingested w w' →
  metricSinks (this w') = metricSinks (this w)
  ∧ maxBufferSize (this w') = maxBufferSize (this w)
  ∧ maxBufferDuration (this w') = maxBufferDuration (this w).
Proof. intros [_ -> _ _]. done. Qed.

Lemma remove_first_Forall (P : N → Prop) g l :
  Forall P l → Forall P (remove_first g l).
Proof.
  induction 1 as [|y l Hy Hl IH]; simpl; [constructor|].
  case_bool_decide; [done|by constructor].
Qed.

(** What one step does to the generation and to the pending timers: it
    leaves the generation and only removes timers, or it bumps the generation
    by one and either keeps the timers (immediate flush) or adds one that
    carries the new generation (scheduling). *)
Lemma step_generation w i :
  (flushId (this (step w i)) = flushId (this w)
   ∧ ∀ P, Forall P (timers w) → Forall P (timers (step w i)))
  ∨ (flushId (this (step w i)) = (flushId (this w) + 1)%N
     ∧ (timers (step w i) = timers w
        ∨ timers (step w i) = timers w ++ [(flushId (this w) + 1)%N])).
Proof.
  destruct i as [traceItems|g|k results|g]; simpl.
  - unfold processTraceItems.
    pose proof (Ingested_ingest traceItems w) as Hing.
    pose proof (Ingested_flushId _ _ Hing) as Hid.
    pose proof (ing_timers _ _ Hing) as Hti.
    destruct (afterIngest_spec (ingest traceItems w))
      as [(_ & ->)|[(_ & _ & ->)|(_ & _ & _ & ->)]].
    + right. destruct (performFlush_spec
        (on_this (λ t, set_flushId (flushId t + 1)%N (set_flushScheduled false t))
                 (ingest traceItems w))) as (_ & -> & -> & _).
      rt_simpl. rewrite Hid, Hti. auto.
    + left. rewrite Hid, Hti. auto.
    + right. unfold scheduleFlush. rt_simpl. rewrite Hid, Hti. auto.
  - left. case_bool_decide; [|auto].
    unfold timerElapsed. rt_simpl. case_bool_decide.
    + destruct (performFlush_spec
        (set_timers (remove_first g (timers w)) w)) as (_ & -> & -> & _).
      rt_simpl. split; [done|]. intros P. apply remove_first_Forall.
    + rt_simpl. split; [done|]. intros P. apply remove_first_Forall.
  - left. destruct (fanouts w !! k) as [sinks|]; [|auto].
    case_bool_decide; [|auto].
    destruct (allSettled_spec results (set_fanouts (delete k (fanouts w)) w))
      as (_ & -> & -> & _).
    rt_simpl. auto.
  - left. case_bool_decide; [|auto].
    rt_simpl. split; [done|]. intros P. apply remove_first_Forall.
Qed.

Lemma step_flushId_mono w i :
  (flushId (this w) ≤ flushId (this (step w i)))%N.
Proof. destruct (step_generation w i) as [[-> _]|[-> _]]; lia. Qed.

Lemma run_flushId_mono inputs w :
  (flushId (this w) ≤ flushId (this (run w inputs)))%N.
Proof.
  revert w. induction inputs as [|i inputs IH]; intros w; simpl; [done|].
  etrans; [apply (step_flushId_mono w i)|apply IH].
Qed.

Lemma step_TimersBounded w i : TimersBounded w → TimersBounded (step w i).
Proof.
  unfold TimersBounded. intros Hb.
  destruct (step_generation w i) as [[-> HP]|[-> [->| ->]]].
  - by apply HP.
  - eapply Forall_impl; [exact Hb|]. intros g Hg. simpl in Hg. lia.
  - apply Forall_app. split.
    + eapply Forall_impl; [exact Hb|]. intros g Hg. simpl in Hg. lia.
    + repeat constructor. lia.
Qed.

Lemma run_TimersBounded inputs w : TimersBounded w → TimersBounded (run w inputs).
Proof.
  revert w. induction inputs as [|i inputs IH]; intros w Hb; simpl; [done|].
  by apply IH, step_TimersBounded.
Qed.

Lemma boot_TimersBounded options : TimersBounded (boot options).
Proof. constructor. Qed.

Lemma emitted_app w i l : calls (step w i) = calls w ++ l → emitted w i = l.
Proof. unfold emitted. intros ->. by rewrite drop_app_length. Qed.

(** The three ways a call of [processTraceItems] can end, with everything
    it changes. *)
Lemma processTraceItems_cases traceItems w :
  let w1 := ingest traceItems w in
  let w' := step w (ProcessTraceItems traceItems) in
  ∃ l, calls w1 = calls w ++ l ∧ Forall isIngestCall l ∧
  ((bufferFull w1 = true
    ∧ emitted w (ProcessTraceItems traceItems) =
        l ++ flushCalls (metricSinks (this w)) (toMetricPayloads (metrics (this w1)))
    ∧ this w' = set_flushScheduled false
                  (set_metrics ∅ (set_flushId (flushId (this w) + 1)%N (this w1)))
    ∧ timers w' = timers w
    ∧ fanouts w' = fanouts w ++
        awaitedBy (metricSinks (this w)) (toMetricPayloads (metrics (this w1))))
   ∨ (bufferFull w1 = false
      ∧ (flushScheduled (this w) = true ∨ getMetricCount (metrics (this w1)) = 0)
      ∧ emitted w (ProcessTraceItems traceItems) = l
      ∧ w' = w1)
   ∨ (bufferFull w1 = false
      ∧ flushScheduled (this w) = false
      ∧ 0 < getMetricCount (metrics (this w1))
      ∧ emitted w (ProcessTraceItems traceItems) =
          l ++ [SchedulerWait (flushId (this w) + 1)%N
                  (num_mul (maxBufferDuration (this w)) (num_of_Z 1000))]
      ∧ this w' = set_flushId (flushId (this w) + 1)%N
                    (set_flushScheduled true (this w1))
      ∧ timers w' = timers w ++ [(flushId (this w) + 1)%N]
      ∧ fanouts w' = fanouts w)).
Proof.
  intros w1 w'.
  pose proof (Ingested_ingest traceItems w) as Hing. fold w1 in Hing.
  pose proof (Ingested_flushId _ _ Hing) as Hid.
  pose proof (Ingested_flushScheduled _ _ Hing) as Hsch.
  destruct (Ingested_config _ _ Hing) as (Hsinks & _ & Hdur).
  destruct Hing as [(l & Hcalls & Hl & _) _ Hti Hfa].
  exists l. split; [done|]. split; [done|].
  subst w'. simpl. unfold processTraceItems. fold w1.
  destruct (afterIngest_spec w1) as [(Hf & He)|[(Hf & Hs & He)|(Hf & Hs & Hc & He)]].
  - left. split; [done|].
    destruct (performFlush_spec
      (on_this (λ t, set_flushId (flushId t + 1)%N (set_flushScheduled false t))
               w1)) as (Hpc & Hpt & Hpti & Hpfa).
    rewrite <-He in Hpc, Hpt, Hpti, Hpfa. rt_simpl.
    rewrite Hsinks, Hcalls in Hpc. rewrite Hsinks in Hpfa.
    repeat split.
    + apply emitted_app. simpl. unfold processTraceItems. fold w1.
      rewrite Hpc. by rewrite <-app_assoc.
    + rewrite Hpt, Hid. done.
    + congruence.
    + rewrite Hpfa, Hfa. done.
  - right; left. rewrite Hsch in Hs. repeat split; try done.
    apply emitted_app. simpl. unfold processTraceItems. fold w1.
    by rewrite He.
  - right; right. rewrite Hsch in Hs. split; [done|]. split; [done|].
    split; [done|]. rewrite He. unfold scheduleFlush. rt_simpl.
    rewrite Hid, Hti, Hfa. repeat split.
    apply emitted_app. simpl. unfold processTraceItems. fold w1.
    rewrite He. unfold scheduleFlush. rt_simpl.
    rewrite Hid, Hdur, Hcalls. by rewrite <-app_assoc.
Qed.

Lemma wait_not_ingest g ms l : Forall isIngestCall l → SchedulerWait g ms ∉ l.
Proof.
  intros Hl Hin. rewrite Forall_forall in Hl. by apply Hl in Hin.
Qed.

Lemma wait_not_flush g ms sinks items : SchedulerWait g ms ∉ flushCalls sinks items.
Proof.
  destruct (flushCalls_tail sinks items) as (rest & -> & Hrest).
  rewrite elem_of_app, !elem_of_cons, elem_of_nil.
  intros [[?|[?|[]]]|Hin]; try done.
  rewrite Forall_forall in Hrest. by apply Hrest in Hin.
Qed.

(** A timer whose captured generation is not the live one resumes into
    nothing: no call is made and the object is left as it is. *)
Lemma stale_timer w g :
  g ≠ flushId (this w) →
  emitted w (TimerElapsed g) = []
  ∧ this (step w (TimerElapsed g)) = this w
  ∧ fanouts (step w (TimerElapsed g)) = fanouts w.
Proof.
  intros Hne. unfold emitted. simpl. case_bool_decide.
  - unfold timerElapsed. rt_simpl. rewrite bool_decide_eq_false_2 by done.
    rt_simpl. by rewrite drop_all.
  - by rewrite drop_all.
Qed.

(** *** The generation race *)

(** A call of [processTraceItems] that makes a [scheduler.wait] call captured
    the generation it has just made current. *)
Lemma scheduled_generation traceItems w g ms :
  SchedulerWait g ms ∈ emitted w (ProcessTraceItems traceItems) →
  g = (flushId (this w) + 1)%N
  ∧ flushId (this (step w (ProcessTraceItems traceItems))) = g
  ∧ flushScheduled (this w) = false
  ∧ timers (step w (ProcessTraceItems traceItems)) = timers w ++ [g]
  ∧ ms = num_mul (maxBufferDuration (this w)) (num_of_Z 1000)
  ∧ 0 < getMetricCount (metrics (this (ingest traceItems w)))
  ∧ flushScheduled (this (step w (ProcessTraceItems traceItems))) = true.
Proof.
  intros Hin.
  destruct (processTraceItems_cases traceItems w)
    as (l & _ & Hl & [(_ & He & _)|[(_ & _ & He & _)|(_ & Hs & Hc & He & Ht & Hti & _)]]);
    rewrite He in Hin.
  - apply elem_of_app in Hin as [Hin|Hin].
    + by apply wait_not_ingest in Hin.
    + by apply wait_not_flush in Hin.
  - by apply wait_not_ingest in Hin.
  - apply elem_of_app in Hin as [Hin|Hin]; [by apply wait_not_ingest in Hin|].
    apply list_elem_of_singleton in Hin. injection Hin as -> ->.
    rewrite Ht, Hti. done.
Qed.

(** A call of [processTraceItems] that finds the buffer full bumps the
    generation. *)
Lemma immediate_flush_generation traceItems w :
  bufferFull (ingest traceItems w) = true →
  flushId (this (step w (ProcessTraceItems traceItems))) = (flushId (this w) + 1)%N.
Proof.
  intros Hfull.
  destruct (processTraceItems_cases traceItems w)
    as (l & _ & _ & [(_ & _ & -> & _)|[(Hf & _)|(Hf & _)]]); [done|congruence..].
Qed.

(** C1. No double flush under the generation race: when a call of
    [processTraceItems] has scheduled a time based flush that captured the
    generation [g], and a later call finds the buffer full and flushes at
    once, then, whatever else happens in between and afterwards, [g] is no
    longer the live generation when the timer elapses, and the resumed
    [scheduleFlush] makes no call at all (no snapshot, no clear, no
    [sendMetrics]) and leaves the object, its store included, as it is. *)
Theorem no_double_flush_generation_race
    (options : MetricTailOptions) (before : list Input)
    (batchA : list TraceItem) (g : N) (ms : number) (between : list Input)
    (batchB : list TraceItem) (after : list Input) :
  let w1 := run (boot options) before in
  let w2 := run (step w1 (ProcessTraceItems batchA)) between in
  let w3 := run (step w2 (ProcessTraceItems batchB)) after in
  SchedulerWait g ms ∈ emitted w1 (ProcessTraceItems batchA) →
  bufferFull (ingest batchB w2) = true →
  g ≠ flushId (this w3)
  ∧ emitted w3 (TimerElapsed g) = []
  ∧ this (step w3 (TimerElapsed g)) = this w3
  ∧ fanouts (step w3 (TimerElapsed g)) = fanouts w3.
Proof.
  intros w1 w2 w3 Hwait Hfull.
  apply scheduled_generation in Hwait as (_ & Hg & _).
  apply immediate_flush_generation in Hfull.
  pose proof (run_flushId_mono between (step w1 (ProcessTraceItems batchA))) as H12.
  pose proof (run_flushId_mono after (step w2 (ProcessTraceItems batchB))) as H23.
  fold w2 in H12. fold w3 in H23.
  assert (g ≠ flushId (this w3)) as Hne by lia.
  split; [done|]. by apply stale_timer.
Qed.

(** *** Snapshot and clear *)

Lemma snoc_split {A} (t pre post : list A) (c x : A) :
  t ++ [c] = pre ++ x :: post →
  (post = [] ∧ pre = t ∧ x = c)
  ∨ (∃ post0, post = post0 ++ [c] ∧ t = pre ++ x :: post0).
Proof.
  destruct post as [|y post0 _] using rev_ind; intros Heq.
  - left. apply app_inj_tail in Heq as [-> ->]. done.
  - right. exists post0.
    change (pre ++ x :: post0 ++ [y]) with (pre ++ (x :: post0) ++ [y]) in Heq.
    rewrite app_assoc in Heq. apply app_inj_tail in Heq as [-> ->]. done.
Qed.

Lemma snoc_two {A} (t : list A) (a b : A) : t ++ [a; b] = (t ++ [a]) ++ [b].
Proof. by rewrite <-app_assoc. Qed.

Lemma currentWindow_app t l :
  currentWindow (t ++ l) = foldl window_step (currentWindow t) l.
Proof. apply foldl_app. Qed.

Lemma window_ingest l win :
  Forall isIngestCall l → foldl window_step win l = win ++ stored l.
Proof.
  intros Hl. revert win. induction Hl as [|c l Hc Hl IH]; intros win; simpl.
  - by rewrite app_nil_r.
  - rewrite IH. destruct c; try done; simpl.
    by rewrite <-app_assoc.
Qed.

Lemma window_neutral l win :
  Forall (λ c, ¬ isClear c ∧ ¬ isIngestCall c) l → foldl window_step win l = win.
Proof.
  intros Hl. revert win. induction Hl as [|c l [Hc1 Hc2] Hl IH]; intros win; simpl.
  - done.
  - rewrite IH. destruct c; simpl in *; tauto.
Qed.

Lemma window_flush sinks items win :
  foldl window_step win (flushCalls sinks items) = [].
Proof.
  destruct (flushCalls_tail sinks items) as (rest & -> & Hrest).
  simpl. apply window_neutral.
  eapply Forall_impl; [exact Hrest|]. intros c. destruct c; simpl; tauto.
Qed.

Lemma WindowTrace_plain t l :
  WindowTrace t → Forall (λ c, ¬ isSnapshot c ∧ ¬ isClear c) l →
  WindowTrace (t ++ l).
Proof.
  intros Ht Hl. revert t Ht.
  induction Hl as [|c l [Hc1 Hc2] Hl IH]; intros t Ht.
  - by rewrite app_nil_r.
  - change (t ++ c :: l) with (t ++ [c] ++ l).
    rewrite app_assoc. apply IH. by constructor.
Qed.

Lemma WindowTrace_flush t sinks :
  WindowTrace t →
  WindowTrace (t ++ flushCalls sinks (toMetricPayloads (storeOf (currentWindow t)))).
Proof.
  intros Ht.
  destruct (flushCalls_tail sinks (toMetricPayloads (storeOf (currentWindow t))))
    as (rest & -> & Hrest).
  rewrite app_assoc.
  apply WindowTrace_plain; [by constructor|].
  eapply Forall_impl; [exact Hrest|]. intros c. destruct c; simpl; tauto.
Qed.

Lemma StoreIsWindow_boot options : StoreIsWindow (boot options).
Proof. split; [done|constructor]. Qed.

Lemma StoreIsWindow_Ingested w w' :
  Ingested w w' → StoreIsWindow w → StoreIsWindow w'.
Proof.
  intros [(l & Hc & Hl & Hm) _ _ _] [Hs Ht]. split.
  - rewrite Hm, Hc, currentWindow_app, window_ingest by done.
    unfold storeOf. rewrite foldl_app. by rewrite Hs.
  - rewrite Hc. apply WindowTrace_plain; [done|].
    eapply Forall_impl; [exact Hl|]. intros c. destruct c; simpl; tauto.
Qed.

Lemma StoreIsWindow_performFlush w : StoreIsWindow w → StoreIsWindow (performFlush w).
Proof.
  intros [Hs Ht].
  destruct (performFlush_spec w) as (Hc & Hth & _).
  split.
  - rewrite Hth, Hc, currentWindow_app, window_flush. done.
  - rewrite Hc, Hs. by apply WindowTrace_flush.
Qed.

Lemma StoreIsWindow_ext w w' :
  metrics (this w') = metrics (this w) → calls w' = calls w →
  StoreIsWindow w → StoreIsWindow w'.
Proof. unfold StoreIsWindow. by intros -> ->. Qed.

Lemma StoreIsWindow_plain c w :
  ¬ isSnapshot c → ¬ isClear c → ¬ isIngestCall c →
  StoreIsWindow w → StoreIsWindow (called c w).
Proof.
  intros H1 H2 H3 [Hs Ht]. split; rt_simpl.
  - rewrite currentWindow_app. rewrite window_neutral; [done|].
    repeat constructor; done.
  - by constructor.
Qed.

Lemma StoreIsWindow_step w i : StoreIsWindow w → StoreIsWindow (step w i).
Proof.
  intros Hw. destruct i as [traceItems|g|k results|g]; simpl;
    [| | |case_bool_decide; [revert Hw; by apply StoreIsWindow_ext|done]].
  - unfold processTraceItems.
    pose proof (StoreIsWindow_Ingested _ _ (Ingested_ingest traceItems w) Hw) as H1.
    destruct (afterIngest_spec (ingest traceItems w))
      as [(_ & ->)|[(_ & _ & ->)|(_ & _ & _ & ->)]]; [|done|].
    + apply StoreIsWindow_performFlush. revert H1. by apply StoreIsWindow_ext.
    + unfold scheduleFlush.
      eapply StoreIsWindow_ext;
        [| |apply (StoreIsWindow_plain
                    (SchedulerWait (flushId (this (ingest traceItems w)) + 1)%N
                       (num_mul (maxBufferDuration (this (ingest traceItems w)))
                                (num_of_Z 1000)))
                    (ingest traceItems w)); auto]; done.
  - case_bool_decide; [|done]. unfold timerElapsed. rt_simpl.
    case_bool_decide.
    + apply StoreIsWindow_performFlush. revert Hw. by apply StoreIsWindow_ext.
    + revert Hw. by apply StoreIsWindow_ext.
  - destruct (fanouts w !! k) as [sinks|]; [|done].
    case_bool_decide; [|done]. unfold allSettled.
    case_bool_decide.
    + eapply StoreIsWindow_ext;
        [| |apply (StoreIsWindow_plain
                    (ConsoleError (flushErrorReport (rejections results))) w);
             auto]; done.
    + revert Hw. by apply StoreIsWindow_ext.
Qed.

Lemma StoreIsWindow_run inputs w : StoreIsWindow w → StoreIsWindow (run w inputs).
Proof.
  revert w. induction inputs as [|i inputs IH]; intros w Hw; simpl; [done|].
  by apply IH, StoreIsWindow_step.
Qed.

Lemma WindowTrace_snapshot t :
  WindowTrace t →
  ∀ pre items post, t = pre ++ ToMetricPayloads items :: post →
    items = toMetricPayloads (storeOf (currentWindow pre))
    ∧ ∃ post', post = ClearAll :: post'.
Proof.
  induction 1 as [|t c Ht IH Hc1 Hc2|t Ht IH]; intros pre items post Heq.
  - by destruct pre.
  - apply snoc_split in Heq as [(_ & _ & <-)|(post0 & -> & ->)];
      [exfalso; by apply Hc1|].
    destruct (IH pre items post0 eq_refl) as (Hi & post' & Hp).
    split; [exact Hi|]. exists (post' ++ [c]). by rewrite Hp.
  - rewrite snoc_two in Heq.
    apply snoc_split in Heq as [(_ & _ & ?)|(post0 & -> & Heq)]; [done|].
    apply snoc_split in Heq as [(-> & -> & Hi)|(post1 & -> & ->)].
    + injection Hi as ->. split; [done|]. by exists [].
    + destruct (IH pre items post1 eq_refl) as (Hi & post' & Hp).
      split; [exact Hi|]. eexists. by rewrite Hp.
Qed.

Lemma WindowTrace_clear t :
  WindowTrace t →
  ∀ pre post, t = pre ++ ClearAll :: post →
    ∃ pre' items, pre = pre' ++ [ToMetricPayloads items].
Proof.
  induction 1 as [|t c Ht IH Hc1 Hc2|t Ht IH]; intros pre post Heq.
  - by destruct pre.
  - apply snoc_split in Heq as [(_ & _ & <-)|(post0 & -> & ->)];
      [exfalso; by apply Hc2|].
    by eapply IH.
  - rewrite snoc_two in Heq.
    apply snoc_split in Heq as [(_ & -> & _)|(post0 & -> & Heq)]; [by eexists _, _|].
    apply snoc_split in Heq as [(_ & _ & ?)|(post1 & -> & ->)]; [done|].
    by eapply IH.
Qed.

(** C2. Snapshot and clear are one step.  [#performFlush], from any state,
    takes the snapshot of everything the store holds and clears the store
    straight away: its calls are that snapshot, the clear, and then only
    calls of the fanout, and the store is empty when it suspends or returns.
    Along every run the store is the aggregation of the payloads stored
    since the last clear.  So a step that flushes (a call of
    [processTraceItems] that finds the buffer full, or the elapse of the
    timer of the live generation) exports exactly the payloads stored since
    the previous clear, those of its own batch included, and leaves an empty
    store.  In the call trace of every run each snapshot is directly
    followed by its clear, with no call of any task in between, and the
    store is never cleared otherwise: a stored event is exported by the
    first flush that follows it and by no other, and none is cleared without
    having been exported. *)
Theorem snapshot_and_clear_atomic (options : MetricTailOptions)
    (inputs : list Input) (w0 : Runtime) (traceItems : list TraceItem) :
  let w := run (boot options) inputs in
  let trace := calls w in
  (∃ rest,
     calls (performFlush w0) =
       calls w0 ++ ToMetricPayloads (toMetricPayloads (metrics (this w0)))
                   :: ClearAll :: rest
     ∧ Forall isFanoutCall rest)
  ∧ metrics (this (performFlush w0)) = ∅
  ∧ (∀ pre items post, trace = pre ++ ToMetricPayloads items :: post →
       items = toMetricPayloads (storeOf (currentWindow pre))
       ∧ ∃ post', post = ClearAll :: post')
  ∧ (∀ pre post, trace = pre ++ ClearAll :: post →
       ∃ pre' items, pre = pre' ++ [ToMetricPayloads items])
  ∧ metrics (this w) = storeOf (currentWindow trace)
  ∧ (bufferFull (ingest traceItems w) = true →
       ∃ l, Forall isIngestCall l
         ∧ emitted w (ProcessTraceItems traceItems) =
             l ++ flushCalls (metricSinks (this w))
                    (toMetricPayloads
                       (storeOf (currentWindow trace ++ stored l)))
         ∧ metrics (this (step w (ProcessTraceItems traceItems))) = ∅)
  ∧ (flushId (this w) ∈ timers w →
       emitted w (TimerElapsed (flushId (this w))) =
         flushCalls (metricSinks (this w))
           (toMetricPayloads (storeOf (currentWindow trace)))
       ∧ metrics (this (step w (TimerElapsed (flushId (this w))))) = ∅).
Proof.
  intros w trace.
  pose proof (StoreIsWindow_run inputs _ (StoreIsWindow_boot options)) as Hw.
  fold w in Hw. destruct Hw as [Hs Ht]. fold trace in Hs, Ht.
  split.
  { destruct (performFlush_spec w0) as (Hc & _).
    destruct (flushCalls_tail (metricSinks (this w0))
                (toMetricPayloads (metrics (this w0)))) as (rest & Hfc & Hrest).
    exists rest. rewrite Hc, Hfc. done. }
  split. { by destruct (performFlush_spec w0) as (_ & -> & _). }
  split; [by apply WindowTrace_snapshot|].
  split; [by apply WindowTrace_clear|].
  split; [done|].
  split.
  - intros Hfull.
    pose proof (StoreIsWindow_Ingested _ _ (Ingested_ingest traceItems w)
                  (conj Hs Ht)) as [Hs1 _].
    destruct (processTraceItems_cases traceItems w)
      as (l & Hc & Hl & [(_ & He & Hth & _)|[(Hf & _)|(Hf & _)]]);
      [|congruence..].
    exists l. split; [done|]. split; [|by rewrite Hth].
    rewrite He, Hs1, Hc, currentWindow_app, window_ingest by done. done.
  - intros Hin. unfold emitted. simpl.
    rewrite bool_decide_eq_true_2 by done.
    unfold timerElapsed. rt_simpl. rewrite bool_decide_eq_true_2 by done.
    destruct (performFlush_spec
      (set_timers (remove_first (flushId (this w)) (timers w)) w))
      as (-> & -> & _).
    rt_simpl. by rewrite drop_app_length, Hs.
Qed.

(** *** The size trigger *)

Lemma flushCount_app l1 l2 : flushCount (l1 ++ l2) = flushCount l1 + flushCount l2.
Proof. unfold flushCount. by rewrite filter_app, length_app. Qed.

Lemma flushCount_ingest l : Forall isIngestCall l → flushCount l = 0.
Proof.
  unfold flushCount. induction 1 as [|c l Hc Hl IH]; [done|].
  rewrite filter_cons. destruct (decide (isSnapshot c)) as [Hs|_]; [|done].
  by destruct c.
Qed.

Lemma flushCount_flushCalls sinks items : flushCount (flushCalls sinks items) = 1.
Proof.
  destruct (flushCalls_tail sinks items) as (rest & -> & Hrest).
  rewrite flushCount_app.
  replace (flushCount rest) with 0; [done|].
  unfold flushCount. induction Hrest as [|c rest Hc Hrest IH]; [done|].
  rewrite filter_cons. destruct (decide (isSnapshot c)) as [Hs|_]; [|done].
  by destruct c.
Qed.

Lemma toMetricPayloads_length (db : MetricsDb) :
  length (toMetricPayloads db) = getMetricCount db.
Proof.
  unfold toMetricPayloads, getMetricCount.
  by rewrite !length_fmap, length_map_to_list.
Qed.

(** C3. Size trigger: in every reachable runtime, a call of
    [processTraceItems] that leaves the store with at least [maxBufferSize]
    distinct metrics performs exactly one flush, in that same call and
    whether or not a flush was scheduled: it takes one snapshot of the whole
    store, clears it and then makes the calls of the fanout (none when the
    snapshot is empty); the store's metric count is [0] afterwards, no flush is
    scheduled, the generation was bumped by one, and no pending timer
    carries the live generation any more. *)
Theorem size_trigger_flushes_once (options : MetricTailOptions)
    (inputs : list Input) (traceItems : list TraceItem) :
  let w := run (boot options) inputs in
  let w' := step w (ProcessTraceItems traceItems) in
  bufferFull (ingest traceItems w) = true →
  flushCount (emitted w (ProcessTraceItems traceItems)) = 1
  ∧ (∃ l, Forall isIngestCall l
        ∧ emitted w (ProcessTraceItems traceItems) =
            l ++ flushCalls (metricSinks (this w))
                   (toMetricPayloads (metrics (this (ingest traceItems w)))))
  ∧ getMetricCount (metrics (this w')) = 0
  ∧ flushScheduled (this w') = false
  ∧ flushId (this w') = (flushId (this w) + 1)%N
  ∧ timers w' = timers w
  ∧ Forall (λ g, g ≠ flushId (this w')) (timers w').
Proof.
  intros w w' Hfull.
  pose proof (run_TimersBounded inputs _ (boot_TimersBounded options)) as Hb.
  fold w in Hb.
  destruct (processTraceItems_cases traceItems w)
    as (l & _ & Hl & [(_ & He & Ht & Hti & _)|[(Hf & _)|(Hf & _)]]);
    [|congruence..].
  fold w' in Ht, Hti. rewrite He, Ht, Hti. rt_simpl.
  split. { by rewrite flushCount_app, flushCount_ingest, flushCount_flushCalls. }
  split. { by exists l. }
  repeat split.
  eapply Forall_impl; [exact Hb|]. intros g Hg. simpl in Hg. lia.
Qed.

(** *** Coalescing *)

Lemma OneTimer_step w i :
  match i with
  | ProcessTraceItems traceItems => bufferFull (ingest traceItems w) = false
  | _ => True
  end →
  OneTimer w → OneTimer (step w i).
Proof.
  unfold OneTimer. intros Hbelow [Hw Hidle].
  destruct i as [traceItems|g|k results|g].
  - destruct (processTraceItems_cases traceItems w)
      as (l & _ & _ & [(Hf & _)|[(_ & _ & _ & ->)|(_ & Hs & _ & _ & -> & -> & _)]]);
      [congruence| |].
    + pose proof (Ingested_ingest traceItems w) as Hing.
      by rewrite (ing_timers _ _ Hing), (Ingested_flushScheduled _ _ Hing),
                 (Ingested_flushId _ _ Hing).
    + rewrite (Hidle Hs). rt_simpl. split; [by right|done].
  - simpl. case_bool_decide as Hin; [|done].
    destruct Hw as [Hw|Hw]; rewrite Hw in Hin; [by apply elem_of_nil in Hin|].
    apply list_elem_of_singleton in Hin as ->.
    unfold timerElapsed. rt_simpl. rewrite bool_decide_eq_true_2 by done.
    destruct (performFlush_spec
      (set_timers (remove_first (flushId (this w)) (timers w)) w))
      as (_ & -> & -> & _).
    rt_simpl. rewrite Hw. simpl. rewrite bool_decide_eq_true_2 by done.
    split; [by left|done].
  - simpl. destruct (fanouts w !! k) as [sinks|]; [|done].
    case_bool_decide; [|done].
    destruct (allSettled_spec results (set_fanouts (delete k (fanouts w)) w))
      as (_ & -> & -> & _).
    done.
  - simpl. case_bool_decide as Hin; [|done].
    destruct Hw as [Hw|Hw]; rewrite Hw in Hin; [by apply elem_of_nil in Hin|].
    apply list_elem_of_singleton in Hin as ->.
    rt_simpl. rewrite Hw. simpl. rewrite bool_decide_eq_true_2 by done.
    split; [by left|done].
Qed.

Lemma OneTimer_run inputs w :
  belowThreshold w inputs → OneTimer w → OneTimer (run w inputs).
Proof.
  revert w. induction inputs as [|i inputs IH]; intros w Hbelow Hw; simpl; [done|].
  destruct Hbelow as [Hi Hrest]. apply IH; [done|]. by apply OneTimer_step.
Qed.

Lemma ExactlyOneTimer_step w i :
  match i with
  | ProcessTraceItems traceItems => bufferFull (ingest traceItems w) = false
  | WaitRejected _ => False
  | _ => True
  end →
  ExactlyOneTimer w → ExactlyOneTimer (step w i).
Proof.
  unfold ExactlyOneTimer. intros Hbelow Hw.
  destruct i as [traceItems|g|k results|g]; [| | |done].
  - destruct (processTraceItems_cases traceItems w)
      as (l & _ & _ & [(Hf & _)|[(_ & _ & _ & ->)|(_ & Hs & _ & _ & -> & -> & _)]]);
      [congruence| |].
    + pose proof (Ingested_ingest traceItems w) as Hing.
      by rewrite (ing_timers _ _ Hing), (Ingested_flushScheduled _ _ Hing),
                 (Ingested_flushId _ _ Hing).
    + rewrite Hw, Hs. done.
  - simpl. case_bool_decide as Hin; [|done].
    destruct (flushScheduled (this w)); rewrite Hw in Hin;
      [|by apply elem_of_nil in Hin].
    apply list_elem_of_singleton in Hin as ->.
    unfold timerElapsed. rt_simpl. rewrite bool_decide_eq_true_2 by done.
    destruct (performFlush_spec
      (set_timers (remove_first (flushId (this w)) (timers w)) w))
      as (_ & -> & -> & _).
    rt_simpl. rewrite Hw. simpl. by rewrite bool_decide_eq_true_2.
  - simpl. destruct (fanouts w !! k) as [sinks|]; [|done].
    case_bool_decide; [|done].
    destruct (allSettled_spec results (set_fanouts (delete k (fanouts w)) w))
      as (_ & -> & -> & _).
    done.
Qed.

Lemma ExactlyOneTimer_run inputs w :
  belowThreshold w inputs → noWaitRejected inputs →
  ExactlyOneTimer w → ExactlyOneTimer (run w inputs).
Proof.
  revert w. induction inputs as [|i inputs IH]; intros w Hbelow Hno Hw; simpl;
    [done|].
  destruct Hbelow as [Hi Hrest]. apply IH; [done| |].
  - intros g Hin. apply (Hno g). by apply list_elem_of_further.
  - apply ExactlyOneTimer_step; [|done].
    destruct i as [traceItems|g|k results|g]; try done.
    apply (Hno g), list_elem_of_here.
Qed.

Lemma belowThreshold_app w l1 l2 :
  belowThreshold w (l1 ++ l2) →
  belowThreshold w l1 ∧ belowThreshold (run w l1) l2.
Proof.
  revert w. induction l1 as [|i l1 IH]; intros w; simpl; [done|].
  intros [Hi Hrest]. apply IH in Hrest as [? ?]. done.
Qed.

(** C4. Scheduler coalescing: along every run whose calls of
    [processTraceItems] all stay below the size threshold, at most one
    scheduled flush is pending, it carries the live generation, and none is
    pending while no flush is scheduled (as long as no wait was rejected:
    exactly one while a flush is scheduled, and none otherwise); a further
    call below the threshold while a flush is scheduled makes no
    [scheduler.wait] call and leaves the pending timer as it is; and a call
    makes a [scheduler.wait] call only when no flush was scheduled and the
    store is non empty after the batch, in which case the timer captures
    the incremented generation, which is then the live one, and waits
    [maxBufferDuration] seconds. *)
Theorem scheduler_coalescing (options : MetricTailOptions)
    (inputs : list Input) (traceItems : list TraceItem) :
  let w := run (boot options) inputs in
  let w' := step w (ProcessTraceItems traceItems) in
  belowThreshold (boot options) (inputs ++ [ProcessTraceItems traceItems]) →
  (length (timers w) ≤ 1)%nat
  ∧ (length (timers w') ≤ 1)%nat
  ∧ (noWaitRejected inputs →
       timers w = (if flushScheduled (this w) then [flushId (this w)] else []))
  ∧ (timers w = [] ∨ timers w = [flushId (this w)])
  ∧ (flushScheduled (this w) = false → timers w = [])
  ∧ (flushScheduled (this w) = true →
       timers w' = timers w
       ∧ ∀ g ms, SchedulerWait g ms ∉ emitted w (ProcessTraceItems traceItems))
  ∧ (∀ g ms, SchedulerWait g ms ∈ emitted w (ProcessTraceItems traceItems) →
       flushScheduled (this w) = false
       ∧ 0 < getMetricCount (metrics (this (ingest traceItems w)))
       ∧ g = (flushId (this w) + 1)%N
       ∧ g = flushId (this w')
       ∧ ms = num_mul (maxBufferDuration (this w)) (num_of_Z 1000)
       ∧ timers w' = [g]).
Proof.
  intros w w' Hbelow.
  apply belowThreshold_app in Hbelow as [Hbelow [Hlast _]]. fold w in Hlast.
  assert (OneTimer (boot options)) as Hboot by (split; [by left|done]).
  assert (OneTimer w) as Hw by (by apply OneTimer_run).
  assert (OneTimer w') as Hw' by (by apply OneTimer_step).
  destruct Hw as [Hw Hidle]. destruct Hw' as [Hw' _].
  split. { destruct Hw as [-> | ->]; simpl; lia. }
  split. { destruct Hw' as [-> | ->]; simpl; lia. }
  split. { intros Hno. by apply (ExactlyOneTimer_run inputs (boot options)). }
  split; [done|]. split; [done|].
  split.
  - intros Hs.
    assert (∀ g ms, SchedulerWait g ms ∉ emitted w (ProcessTraceItems traceItems))
      as Hno.
    { intros g ms Hin. apply scheduled_generation in Hin as (_ & _ & Hs' & _).
      congruence. }
    split; [|done].
    destruct (processTraceItems_cases traceItems w)
      as (l & _ & _ & [(_ & _ & _ & Hti & _)|[(_ & _ & _ & He)|(_ & Hs' & _)]]);
      [done| |congruence].
    fold w' in He. rewrite He.
    apply (ing_timers _ _ (Ingested_ingest traceItems w)).
  - intros g ms Hin.
    apply scheduled_generation in Hin as (Hg & Hid & Hs & Hti & Hms & Hc & _).
    fold w' in Hid, Hti. rewrite (Hidle Hs) in Hti. done.
Qed.

(** *** Fanout *)

Lemma sentBatches_app l1 l2 :
  sentBatches (l1 ++ l2) = sentBatches l1 ++ sentBatches l2.
Proof. apply omap_app. Qed.

Lemma sentBatches_sends (sinks : list MetricSink)
    (items : list ExportedMetricPayload) :
  sentBatches ((λ sink, SendMetrics sink items) <$> sinks) =
    (λ sink, (sink, items)) <$> sinks.
Proof.
  induction sinks as [|sink sinks IH]; [done|]. simpl. f_equal. exact IH.
Qed.

Lemma attempted_throwing (before : list string) name thrown after :
  attempted ((Sink <$> before) ++ ThrowingSink name thrown :: after) =
    (Sink <$> before) ++ [ThrowingSink name thrown]
  ∧ thrownBy ((Sink <$> before) ++ ThrowingSink name thrown :: after) =
      Some thrown.
Proof.
  induction before as [|b before [IH1 IH2]]; [done|].
  rewrite fmap_cons. cbn [app attempted thrownBy]. by rewrite IH1, IH2.
Qed.

Lemma attempted_all sinks : thrownBy sinks = None → attempted sinks = sinks.
Proof.
  induction sinks as [|[name|name thrown] sinks IH]; simpl; [done| |done].
  intros Hn. by rewrite IH.
Qed.



(** The failing input of C5: a sink whose [sendMetrics] throws instead of
    returning a promise.  The flush of a non empty snapshot calls the sinks
    before it and the sink itself; the exception ends the [map], so none of
    the sinks after it is called; the [catch] clause logs
    ["Error flushing batch:"] with what was thrown, no failure count is
    reported, and the promises of the sinks already called are waited for by
    no one.  The batch is gone from the store all the same. *)
Theorem throwing_sink_aborts_fanout (w : Runtime) (before : list string)
    (name : string) (thrown : Reason) (after : list MetricSink) :
  let items := toMetricPayloads (metrics (this w)) in
  let made := drop (length (calls w)) (calls (performFlush w)) in
  metricSinks (this w) =
    (Sink <$> before) ++ ThrowingSink name thrown :: after →
  items ≠ [] →
  made = [ToMetricPayloads items; ClearAll]
         ++ ((λ sink, SendMetrics sink items) <$> (Sink <$> before))
         ++ [SendMetrics (ThrowingSink name thrown) items;
             ConsoleErrorWith "Error flushing batch:" thrown]
  ∧ sentBatches made =
      (λ sink, (sink, items))
        <$> ((Sink <$> before) ++ [ThrowingSink name thrown])
  ∧ fanouts (performFlush w) = fanouts w
  ∧ metrics (this (performFlush w)) = ∅.
Proof.
  intros items made Hsinks Hitems.
  destruct (performFlush_spec w) as (Hc & Ht & _ & Hfa).
  fold items in Hc, Hfa.
  destruct (attempted_throwing before name thrown after) as [Hatt Hthr].
  unfold flushCalls, fanoutCalls in Hc. unfold awaitedBy in Hfa.
  rewrite Hsinks, Hatt, Hthr in Hc. rewrite Hsinks, Hthr in Hfa.
  rewrite bool_decide_eq_false_2 in Hc, Hfa by (by destruct items).
  assert (made = [ToMetricPayloads items; ClearAll]
                 ++ ((λ sink, SendMetrics sink items) <$> (Sink <$> before))
                 ++ [SendMetrics (ThrowingSink name thrown) items;
                     ConsoleErrorWith "Error flushing batch:" thrown]) as Hmade.
  { unfold made. rewrite Hc, drop_app_length, fmap_app. simpl.
    by rewrite <-app_assoc. }
  split; [exact Hmade|].
  split.
  - rewrite Hmade. rewrite !sentBatches_app, sentBatches_sends, fmap_app. done.
  - rewrite Hfa, Ht, app_nil_r. done.
Qed.

(** *** Empty flushes *)

Lemma sendCount_app l1 l2 : sendCount (l1 ++ l2) = sendCount l1 + sendCount l2.
Proof. unfold sendCount. by rewrite filter_app, length_app. Qed.

Lemma sendCount_ingest l : Forall isIngestCall l → sendCount l = 0.
Proof.
  unfold sendCount. induction 1 as [|c l Hc Hl IH]; [done|].
  rewrite filter_cons. destruct (decide (isSend c)) as [Hs|_]; [|done].
  by destruct c.
Qed.

Lemma toMetricPayloads_empty (db : MetricsDb) :
  getMetricCount db = 0 → toMetricPayloads db = [].
Proof.
  intros Hc. apply length_zero_iff_nil. by rewrite toMetricPayloads_length.
Qed.

(** C6. Empty flush suppression: a step whose flush would find nothing to
    export (the snapshot of the store as it is, or as the batch leaves it for
    [processTraceItems], has no entry) makes no [sendMetrics] call and awaits
    no fanout; [#performFlush] on such a store only takes the snapshot and
    clears; and an empty store is such a store. *)
Theorem empty_flush_suppression (w : Runtime) (i : Input) :
  toMetricPayloads
    (metrics (this match i with
                   | ProcessTraceItems traceItems => ingest traceItems w
                   | _ => w
                   end)) = [] →
  sendCount (emitted w i) = 0
  ∧ (length (fanouts (step w i)) ≤ length (fanouts w))%nat
  ∧ (∀ w0, toMetricPayloads (metrics (this w0)) = [] →
       calls (performFlush w0) = calls w0 ++ [ToMetricPayloads []; ClearAll]
       ∧ fanouts (performFlush w0) = fanouts w0)
  ∧ (∀ w0, getMetricCount (metrics (this w0)) = 0 →
       toMetricPayloads (metrics (this w0)) = []).
Proof.
  intros Hi.
  assert (∀ w0, toMetricPayloads (metrics (this w0)) = [] →
            calls (performFlush w0) = calls w0 ++ [ToMetricPayloads []; ClearAll]
            ∧ fanouts (performFlush w0) = fanouts w0) as Hflush.
  { intros w0 Hempty.
    destruct (performFlush_spec w0) as (Hc & _ & _ & Hfa).
    rewrite Hempty in Hc, Hfa. unfold flushCalls in Hc. unfold awaitedBy in Hfa.
    simpl in Hc, Hfa. by rewrite app_nil_r in Hfa. }
  split; [|split; [|split; [exact Hflush|intros w0; apply toMetricPayloads_empty]]].
  - destruct i as [traceItems|g|k results|g];
      [| | |unfold emitted; simpl; case_bool_decide; by rewrite drop_all].
    + destruct (processTraceItems_cases traceItems w)
        as (l & _ & Hl & [(_ & -> & _)|[(_ & _ & -> & _)|(_ & _ & _ & -> & _)]]);
        rewrite ?sendCount_app, sendCount_ingest by done; [|done..].
      rewrite Hi. done.
    + unfold emitted. simpl. case_bool_decide; [|by rewrite drop_all].
      unfold timerElapsed. rt_simpl. case_bool_decide; [|by rewrite drop_all].
      destruct (Hflush (set_timers (remove_first g (timers w)) w) Hi) as [-> _].
      rt_simpl. by rewrite drop_app_length.
    + unfold emitted. simpl. destruct (fanouts w !! k); [|by rewrite drop_all].
      case_bool_decide; [|by rewrite drop_all].
      destruct (allSettled_spec results (set_fanouts (delete k (fanouts w)) w))
        as (-> & _). rt_simpl. rewrite drop_app_length.
      by case_bool_decide.
  - destruct i as [traceItems|g|k results|g];
      [| | |simpl; by case_bool_decide].
    + destruct (processTraceItems_cases traceItems w)
        as (l & _ & _ & [(_ & _ & _ & _ & ->)|[(_ & _ & _ & ->)|(_ & _ & _ & _ & _ & _ & ->)]]);
        [|by rewrite (ing_fanouts _ _ (Ingested_ingest traceItems w))|done].
      rewrite Hi. unfold awaitedBy. simpl. by rewrite app_nil_r.
    + simpl. case_bool_decide; [|done].
      unfold timerElapsed. rt_simpl. case_bool_decide; [|done].
      by destruct (Hflush (set_timers (remove_first g (timers w)) w) Hi) as [_ ->].
    + simpl. destruct (fanouts w !! k) eqn:Hk; [|done].
      case_bool_decide; [|done].
      destruct (allSettled_spec results (set_fanouts (delete k (fanouts w)) w))
        as (_ & _ & _ & ->). rt_simpl.
      rewrite length_delete by eauto. lia.
Qed.

(** *** The generation *)

(** C8 (amended). The flush generation never decreases and grows by at most
    one per step.  A call of [processTraceItems] increments it exactly when
    it flushes at once (the buffer is full) or schedules a flush (it makes a
    [scheduler.wait] call).  The resumption of a timer and the resumption of
    a fanout never change it, not even when the timer performs its flush;
    nor does a wait that is rejected. *)
Theorem flushId_lifecycle (w : Runtime) (i : Input) :
  (flushId (this w) ≤ flushId (this (step w i)))%N
  ∧ (flushId (this (step w i)) ≤ flushId (this w) + 1)%N
  ∧ match i with
    | ProcessTraceItems traceItems =>
        flushId (this (step w i)) = (flushId (this w) + 1)%N ↔
        (bufferFull (ingest traceItems w) = true
         ∨ ∃ g ms, SchedulerWait g ms ∈ emitted w i)
    | _ => flushId (this (step w i)) = flushId (this w)
    end.
Proof.
  split; [apply step_flushId_mono|].
  split. { destruct (step_generation w i) as [[-> _]|[-> _]]; lia. }
  destruct i as [traceItems|g|k results|g];
    [| | |simpl; by case_bool_decide].
  - destruct (processTraceItems_cases traceItems w)
      as (l & _ & Hl & [(Hf & _ & -> & _)|[(Hf & _ & He & ->)|(Hf & _ & _ & He & -> & _)]]).
    + rt_simpl. split; auto.
    + rewrite (Ingested_flushId _ _ (Ingested_ingest traceItems w)).
      split; [lia|]. intros [?|(g & ms & Hin)]; [congruence|].
      rewrite He in Hin. by apply wait_not_ingest in Hin.
    + rt_simpl. split; [|done]. intros _. right. eexists _, _. rewrite He.
      apply elem_of_app. right. by apply list_elem_of_singleton.
  - simpl. case_bool_decide; [|done]. unfold timerElapsed. rt_simpl.
    case_bool_decide; [|done].
    by destruct (performFlush_spec (set_timers (remove_first g (timers w)) w))
      as (_ & -> & _).
  - simpl. destruct (fanouts w !! k); [|done]. case_bool_decide; [|done].
    by destruct (allSettled_spec results (set_fanouts (delete k (fanouts w)) w))
      as (_ & -> & _).
Qed.

(** *** Ingress *)

(** What [isValidMetric] accepts: a non null object with a [type] among the
    values of [MetricType], a string [name], a numeric [value], and [tags]
    whose [typeof] is ["object"]. *)
Lemma isValidMetric_true message :
  isValidMetric message = true ↔
  ∃ s name value tags,
    message ≠ JNull ∧ typeof message = TObject
    ∧ ownProps message !! "type" = Some (JStr s)
    ∧ s ∈ MetricType_value <$> MetricType_members
    ∧ ownProps message !! "name" = Some (JStr name)
    ∧ ownProps message !! "value" = Some (JNum value)
    ∧ ownProps message !! "tags" = Some tags
    ∧ typeof tags = TObject.
Proof.
  unfold isValidMetric, js_in, js_get, isMetricTypeValue. split.
  - intros Hv.
    destruct (isNull message) eqn:Hnull; [done|].
    destruct (bool_decide (typeof message = TObject)) eqn:Hobj; [|done].
    apply bool_decide_eq_true in Hobj.
    destruct (ownProps message !! "type") as [ty|] eqn:Hty;
      [|by rewrite (bool_decide_eq_false_2 (is_Some None)) in Hv
          by (by intros [? ?])].
    destruct (ownProps message !! "name") as [nm|] eqn:Hnm;
      [|by rewrite (bool_decide_eq_false_2 (is_Some None)), ?orb_true_r in Hv
          by (by intros [? ?])].
    destruct (ownProps message !! "value") as [vl|] eqn:Hvl;
      [|by rewrite (bool_decide_eq_false_2 (is_Some None)), ?orb_true_r in Hv
          by (by intros [? ?])].
    destruct (ownProps message !! "tags") as [tg|] eqn:Htg;
      [|by rewrite (bool_decide_eq_false_2 (is_Some None)), ?orb_true_r in Hv
          by (by intros [? ?])].
    rewrite !(bool_decide_eq_true_2 (is_Some (Some _))) in Hv by eauto.
    simpl in Hv.
    destruct ty as [| | | |s| |]; simpl in Hv; try done.
    destruct (bool_decide (s ∈ _)) eqn:Hs; simpl in Hv; [|done].
    apply bool_decide_eq_true in Hs.
    apply andb_prop in Hv as [Hv Htags]. apply andb_prop in Hv as [Hval Hname].
    apply bool_decide_eq_true in Hval, Hname, Htags.
    destruct nm; try done. destruct vl; try done.
    eexists _, _, _, _. repeat split; try done.
    by destruct message.
  - intros (s & name & value & tags & Hnull & Hobj & -> & Hs & -> & -> & -> & Htags).
    rewrite !(bool_decide_eq_true_2 (is_Some (Some _))) by eauto.
    rewrite (bool_decide_eq_true_2 _ Hobj). simpl.
    rewrite (bool_decide_eq_true_2 _ Hs). simpl.
    rewrite (bool_decide_eq_true_2 _ Htags).
    by destruct message.
Qed.

(** A message that [isValidMetric] rejects is dropped with a warning: the
    only call is [console.warn], the store is untouched, and the loop goes
    on with the next event. *)
Lemma invalid_metric_dropped globalTags w event rest :
  isValidMetric (dce_message event) = false →
  processEvent globalTags w event = called (ConsoleWarn (dce_message event)) w
  ∧ metrics (this (processEvent globalTags w event)) = metrics (this w)
  ∧ foldl (processEvent globalTags) w (event :: rest) =
      foldl (processEvent globalTags)
            (called (ConsoleWarn (dce_message event)) w) rest.
Proof. intros Hv. unfold processEvent. simpl. by rewrite Hv. Qed.

(** The failing input of C7: a message whose [tags] is [null] passes
    [isValidMetric] and is stored, with the trace's tags only, instead of
    being dropped with a warning. *)
Theorem null_tags_accepted (w : Runtime) (globalTags : gmap string jsval)
    (type : MetricType) (name : string) (value timestamp : number) :
  let message :=
    JObj (list_to_map [("type", JStr (MetricType_value type));
                       ("name", JStr name); ("value", JNum value);
                       ("tags", JNull)]) in
  let event :=
    {| dce_channel := METRICS_CHANNEL_NAME; dce_message := message;
       dce_timestamp := timestamp |} in
  isValidMetric message = true
  ∧ processEvent globalTags w event =
      do_storeMetric (taggedPayload globalTags event) w
  ∧ js_get "tags" (taggedPayload globalTags event) = JObj globalTags
  ∧ calls (processEvent globalTags w event) =
      calls w ++ [StoreMetric (taggedPayload globalTags event)].
Proof.
  intros message event.
  assert (isValidMetric message = true) as Hv.
  { apply isValidMetric_true.
    exists (MetricType_value type), name, value, JNull.
    repeat split; try done.
    apply list_elem_of_fmap. exists type. split; [done|].
    destruct type; unfold MetricType_members; set_solver. }
  split; [done|].
  unfold processEvent. simpl. rewrite Hv.
  split; [done|]. split; [|done].
  unfold taggedPayload, js_get, spreadOver. simpl.
  rewrite lookup_insert_ne by done. rewrite lookup_insert_eq. simpl.
  f_equal. apply (left_id_L ∅ (∪)).
Qed.

(** *** Configuration *)

(** C9 (amended). Configuration defaults and clamp: [maxBufferSize] is the
    configured number when that is truthy (neither [0] nor [NaN]) and [100]
    otherwise, in particular when it is not configured; [maxBufferDuration]
    is the smaller of [30] and the configured number when that is truthy,
    and [5] when it is [0], [NaN] or not configured; it never exceeds [30];
    each default metric is enabled unless its toggle is explicitly
    [false]. *)
Theorem constructor_defaults (options : MetricTailOptions) :
  let t := constructor options in
  maxBufferSize t =
    match opt_maxBufferSize options with
    | Some n => if num_truthy n then n else num_of_Z 100
    | None => num_of_Z 100
    end
  ∧ maxBufferDuration t =
      match opt_maxBufferDuration options with
      | Some (Finite q) =>
          if Qeq_bool q 0 then num_of_Z 5
          else if Qle_bool q 30 then Finite q else num_of_Z 30
      | Some Infinity => num_of_Z 30
      | Some NegInfinity => NegInfinity
      | Some NaN | None => num_of_Z 5
      end
  ∧ num_le (maxBufferDuration t) (num_of_Z 30) = true
  ∧ (cpuTime (defaultMetricsEnabled t) = false ↔
     ∃ d, opt_defaultMetrics options = Some d ∧ opt_cpuTime d = Some false)
  ∧ (wallTime (defaultMetricsEnabled t) = false ↔
     ∃ d, opt_defaultMetrics options = Some d ∧ opt_wallTime d = Some false)
  ∧ (workersInvocation (defaultMetricsEnabled t) = false ↔
     ∃ d, opt_defaultMetrics options = Some d
          ∧ opt_workersInvocation d = Some false).
Proof.
  assert (∀ o field, toggle o field = false ↔
            ∃ d, o = Some d ∧ field d = Some false) as Htoggle.
  { intros o field. unfold toggle. split.
    - destruct o as [d|]; [|done]. destruct (field d) as [[]|] eqn:Hf; try done.
      intros _. by exists d.
    - intros (d & -> & ->). done. }
  intros t. subst t. simpl.
  split; [done|].
  assert (Math_min (num_or (opt_maxBufferDuration options) (num_of_Z 5))
                   (num_of_Z 30) =
          match opt_maxBufferDuration options with
          | Some (Finite q) =>
              if Qeq_bool q 0 then num_of_Z 5
              else if Qle_bool q 30 then Finite q else num_of_Z 30
          | Some Infinity => num_of_Z 30
          | Some NegInfinity => NegInfinity
          | Some NaN | None => num_of_Z 5
          end) as Hmin.
  { destruct (opt_maxBufferDuration options) as [[q| | |]|]; simpl; try done.
    destruct (Qeq_bool q 0); done. }
  split; [exact Hmin|].
  split; [|by rewrite !Htoggle].
  rewrite Hmin.
  destruct (opt_maxBufferDuration options) as [[q| | |]|]; try done.
  destruct (Qeq_bool q 0); [done|].
  destruct (Qle_bool q 30) eqn:Hq; [|done].
  simpl. exact Hq.
Qed.

End Properties.

(** ** Properties of the ingestion path *)

Section IngestProperties.
Context `{Host}.
Local Open Scope list_scope.

Ltac ing_simpl :=
  cbn [this timers fanouts calls clockReads called on_this set_timers
       set_fanouts set_flushId set_metrics set_flushScheduled flushId metrics
       flushScheduled metricSinks maxBufferSize maxBufferDuration
       defaultMetricsEnabled do_storeMetric readClock fst snd] in *.

(** *** Default metrics *)

(** One default metric: a single store whose payload has the given name and
    tags and the time of the trace's event, or the next reading of the clock
    when the trace has none. *)
Lemma storeDefaultMetric_spec type name value options traceItem globalTags w :
  let w' := storeDefaultMetric type name value options traceItem globalTags w in
  ∃ payload,
    calls w' = calls w ++ [StoreMetric payload]
    ∧ js_get "name" payload = JStr name
    ∧ js_get "tags" payload = JObj globalTags
    ∧ js_get "timestamp" payload =
        JNum (default (Date_now (clockReads w)) (eventTimeOf traceItem))
    ∧ clockReads w' =
        clockReads w + match eventTimeOf traceItem with Some _ => 0 | None => 1 end
    ∧ defaultMetricsEnabled (this w') = defaultMetricsEnabled (this w)
    ∧ timers w' = timers w ∧ fanouts w' = fanouts w.
Proof.
  unfold storeDefaultMetric, eventTimestampOrNow, eventTimeOf.
  destruct (ti_eventTimestamp traceItem) as [n|]; [destruct (num_truthy n)|];
    destruct options; ing_simpl; eexists; (split; [reflexivity|]);
    repeat split; try done; lia.
Qed.

Lemma DefaultsStored_nil traceItem globalTags w :
  DefaultsStored traceItem globalTags w w [] [].
Proof.
  unfold DefaultsStored. simpl. rewrite app_nil_r.
  repeat split; try done. destruct (eventTimeOf traceItem); lia.
Qed.

Lemma DefaultsStored_one type name value options traceItem globalTags w :
  ∃ payload,
    DefaultsStored traceItem globalTags w
      (storeDefaultMetric type name value options traceItem globalTags w)
      [name] [payload].
Proof.
  destruct (storeDefaultMetric_spec type name value options traceItem
              globalTags w) as (p & Hc & Hn & Ht & Hts & Hcl & Hd & Hti & Hfa).
  exists p. unfold DefaultsStored. simpl.
  split; [done|]. split; [by rewrite Hn|]. split; [by repeat constructor|].
  split; [|done].
  intros [|k] q Hq; simpl in Hq; [|done].
  injection Hq as <-. by rewrite Nat.add_0_r.
Qed.

Lemma DefaultsStored_app traceItem globalTags w1 w2 w3 n1 n2 p1 p2 :
  DefaultsStored traceItem globalTags w1 w2 n1 p1 →
  DefaultsStored traceItem globalTags w2 w3 n2 p2 →
  DefaultsStored traceItem globalTags w1 w3 (n1 ++ n2) (p1 ++ p2).
Proof.
  intros (Hc1 & Hn1 & Ht1 & Hs1 & Hk1 & Hd1 & Hti1 & Hfa1)
         (Hc2 & Hn2 & Ht2 & Hs2 & Hk2 & Hd2 & Hti2 & Hfa2).
  unfold DefaultsStored.
  split. { by rewrite Hc2, Hc1, fmap_app, <-app_assoc. }
  split. { by rewrite !fmap_app, Hn1, Hn2. }
  split. { by apply Forall_app. }
  split.
  { intros k p Hp. apply lookup_app_Some in Hp as [Hp|[Hle Hp]].
    - by apply Hs1.
    - rewrite (Hs2 _ _ Hp), Hk1.
      destruct (eventTimeOf traceItem); [done|].
      simpl. do 2 f_equal. lia. }
  split.
  { rewrite Hk2, Hk1, length_app.
    destruct (eventTimeOf traceItem); lia. }
  split; [congruence|]. split; congruence.
Qed.

Lemma addDefaultMetrics_stored traceItem globalTags w :
  ∃ payloads,
    DefaultsStored traceItem globalTags w
      (addDefaultMetrics traceItem globalTags w) (enabledNames (this w))
      payloads
    ∧ length payloads = enabledCount (this w).
Proof.
  assert (∃ payloads,
            DefaultsStored traceItem globalTags w
              (addDefaultMetrics traceItem globalTags w)
              (enabledNames (this w)) payloads) as [payloads Hd].
  { unfold addDefaultMetrics, enabledNames.
    set (w1 := if cpuTime (defaultMetricsEnabled (this w)) then _ else w).
    assert (∃ p1, DefaultsStored traceItem globalTags w w1
                    (if cpuTime (defaultMetricsEnabled (this w))
                     then ["worker.cpu_time"%string] else []) p1) as [p1 H1].
    { subst w1. destruct (cpuTime _).
      - destruct (DefaultsStored_one HISTOGRAM "worker.cpu_time"
                    (ti_cpuTime traceItem) (Some histogramOptions) traceItem
                    globalTags w) as [p Hp]. by exists [p].
      - exists []. apply DefaultsStored_nil. }
    pose proof H1 as (_ & _ & _ & _ & _ & He1 & _).
    set (w2 := if wallTime (defaultMetricsEnabled (this w1)) then _ else w1).
    assert (∃ p2, DefaultsStored traceItem globalTags w1 w2
                    (if wallTime (defaultMetricsEnabled (this w))
                     then ["worker.wall_time"%string] else []) p2) as [p2 H2].
    { subst w2. rewrite He1. destruct (wallTime _).
      - destruct (DefaultsStored_one HISTOGRAM "worker.wall_time"
                    (ti_wallTime traceItem) (Some histogramOptions) traceItem
                    globalTags w1) as [p Hp]. by exists [p].
      - exists []. apply DefaultsStored_nil. }
    pose proof H2 as (_ & _ & _ & _ & _ & He2 & _).
    assert (∃ p3, DefaultsStored traceItem globalTags w2
                    (if workersInvocation (defaultMetricsEnabled (this w2))
                     then storeDefaultMetric COUNT "worker.invocation"
                            (num_of_Z 1) None traceItem globalTags w2
                     else w2)
                    (if workersInvocation (defaultMetricsEnabled (this w))
                     then ["worker.invocation"%string] else []) p3) as [p3 H3].
    { rewrite He2, He1. destruct (workersInvocation _).
      - destruct (DefaultsStored_one COUNT "worker.invocation" (num_of_Z 1)
                    None traceItem globalTags w2) as [p Hp]. by exists [p].
      - exists []. apply DefaultsStored_nil. }
    exists (p1 ++ p2 ++ p3).
    eapply DefaultsStored_app; [exact H1|].
    eapply DefaultsStored_app; [exact H2|exact H3]. }
  exists payloads. split; [done|].
  destruct Hd as (_ & Hn & _).
  apply (f_equal length) in Hn. rewrite !length_fmap in Hn. rewrite Hn.
  unfold enabledNames, enabledCount.
  destruct (cpuTime _), (wallTime _), (workersInvocation _); done.
Qed.

(** X2. Default metrics: [#addDefaultMetrics] stores one metric per enabled
    toggle, named [worker.cpu_time], [worker.wall_time] and
    [worker.invocation] in that order, each tagged with exactly the trace's
    tags.  When the trace has a truthy [eventTimestamp] every one of them
    carries it and the clock is not read; otherwise each store reads the
    clock once, so the metrics of one trace carry successive readings. *)
Theorem default_metrics_stored (traceItem : TraceItem)
    (globalTags : gmap string jsval) (w : Runtime) :
  let w' := addDefaultMetrics traceItem globalTags w in
  ∃ payloads,
    calls w' = calls w ++ (StoreMetric <$> payloads)
    ∧ js_get "name" <$> payloads = JStr <$> enabledNames (this w)
    ∧ length payloads = enabledCount (this w)
    ∧ Forall (λ p, js_get "tags" p = JObj globalTags) payloads
    ∧ (∀ k p, payloads !! k = Some p →
         js_get "timestamp" p =
           JNum (default (Date_now (clockReads w + k)) (eventTimeOf traceItem)))
    ∧ clockReads w' =
        clockReads w + match eventTimeOf traceItem with
                    | Some _ => 0
                    | None => enabledCount (this w)
                    end.
Proof.
  intros w'.
  destruct (addDefaultMetrics_stored traceItem globalTags w)
    as (payloads & (Hc & Hn & Ht & Hs & Hk & _) & Hlen).
  exists payloads. rewrite <-Hlen. done.
Qed.

(** *** Accounting for the events of a batch *)

Lemma Ingested_defaults_enabled w w' :
  Ingested w w' →
  defaultMetricsEnabled (this w') = defaultMetricsEnabled (this w).
Proof. intros [_ -> _ _]. done. Qed.

Lemma warned_app l1 l2 : warned (l1 ++ l2) = warned l1 ++ warned l2.
Proof. apply omap_app. Qed.

Lemma stored_app l1 l2 : stored (l1 ++ l2) = stored l1 ++ stored l2.
Proof. apply omap_app. Qed.

Lemma warned_stores payloads : warned (StoreMetric <$> payloads) = [].
Proof. induction payloads as [|p payloads IH]; [done|exact IH]. Qed.

Lemma stored_stores payloads : stored (StoreMetric <$> payloads) = payloads.
Proof.
  induction payloads as [|p payloads IH]; [done|].
  simpl. f_equal. exact IH.
Qed.

Lemma warned_events globalTags events :
  warned (callOf globalTags <$> events) =
    dce_message <$> filter (λ e, isValidMetric (dce_message e) = false) events.
Proof.
  induction events as [|e events IH]; [done|].
  rewrite fmap_cons, filter_cons. unfold callOf at 1.
  destruct (isValidMetric (dce_message e)) eqn:Hv.
  - rewrite decide_False by done. exact IH.
  - rewrite decide_True by done. rewrite fmap_cons, <-IH. done.
Qed.

Lemma stored_events globalTags events :
  stored (callOf globalTags <$> events) =
    taggedPayload globalTags
      <$> filter (λ e, isValidMetric (dce_message e) = true) events.
Proof.
  induction events as [|e events IH]; [done|].
  rewrite fmap_cons, filter_cons. unfold callOf at 1.
  destruct (isValidMetric (dce_message e)) eqn:Hv.
  - rewrite decide_True by done. rewrite fmap_cons, <-IH. done.
  - rewrite decide_False by done. exact IH.
Qed.

Lemma processEvents_calls globalTags events w :
  calls (foldl (processEvent globalTags) w events) =
    calls w ++ (callOf globalTags <$> events)
  ∧ defaultMetricsEnabled (this (foldl (processEvent globalTags) w events)) =
      defaultMetricsEnabled (this w).
Proof.
  revert w. induction events as [|e events IH]; intros w; simpl.
  - by rewrite app_nil_r.
  - destruct (IH (processEvent globalTags w e)) as [-> ->].
    unfold processEvent, callOf.
    destruct (isValidMetric (dce_message e)); ing_simpl;
      by rewrite <-app_assoc.
Qed.

(** One trace item: the default metrics, then one call per event of the
    metrics channel, in order; events of other channels make no call. *)
Lemma processTraceItem_calls w traceItem :
  ∃ defaults,
    calls (processTraceItem w traceItem) =
      calls w ++ (StoreMetric <$> defaults)
              ++ (callOf (globalTagsOf traceItem) <$> metricEventsOf traceItem)
    ∧ length defaults = enabledCount (this w)
    ∧ defaultMetricsEnabled (this (processTraceItem w traceItem)) =
        defaultMetricsEnabled (this w).
Proof.
  unfold processTraceItem. fold (metricEventsOf traceItem).
  destruct (processEvents_calls (globalTagsOf traceItem)
              (metricEventsOf traceItem)
              (addDefaultMetrics traceItem (globalTagsOf traceItem) w))
    as [-> ->].
  destruct (addDefaultMetrics_stored traceItem (globalTagsOf traceItem) w)
    as (defaults & (-> & _) & Hlen).
  exists defaults. rewrite <-app_assoc. split; [done|]. split; [done|].
  apply Ingested_defaults_enabled, Ingested_addDefaultMetrics.
Qed.

Lemma ingest_calls traceItems w :
  ∃ l,
    calls (ingest traceItems w) = calls w ++ l
    ∧ warned l =
        dce_message
          <$> filter (λ e, isValidMetric (dce_message e) = false)
                     (traceItems ≫= metricEventsOf)
    ∧ length (stored l) =
        enabledCount (this w) * length traceItems
        + length (filter (λ e, isValidMetric (dce_message e) = true)
                         (traceItems ≫= metricEventsOf)).
Proof.
  unfold ingest. revert w.
  induction traceItems as [|traceItem traceItems IH]; intros w; simpl.
  - exists []. rewrite app_nil_r. split; [done|]. split; [done|]. simpl. lia.
  - destruct (processTraceItem_calls w traceItem) as (defaults & Hc & Hlen & He).
    destruct (IH (processTraceItem w traceItem)) as (l & -> & Hw & Hs).
    rewrite Hc, <-!app_assoc. eexists. split; [reflexivity|].
    assert (enabledCount (this (processTraceItem w traceItem))
            = enabledCount (this w)) as Hen
      by (unfold enabledCount; by rewrite He).
    rewrite Hen in Hs.
    split.
    + rewrite !warned_app, warned_stores, warned_events, Hw.
      rewrite filter_app, fmap_app. done.
    + rewrite !stored_app, !length_app, stored_stores, stored_events, Hs.
      rewrite filter_app, length_app, length_fmap, Hlen.
      change (length (traceItem :: traceItems)) with (S (length traceItems)).
      rewrite Nat.mul_succ_r. unfold mbind in *. lia.
Qed.

Lemma warned_flushCalls sinks items : warned (flushCalls sinks items) = [].
Proof.
  destruct (flushCalls_tail sinks items) as (rest & -> & Hrest).
  unfold warned. simpl.
  induction Hrest as [|c rest Hc Hrest IH]; [done|]. by destruct c.
Qed.

Lemma stored_flushCalls sinks items : stored (flushCalls sinks items) = [].
Proof.
  destruct (flushCalls_tail sinks items) as (rest & -> & Hrest).
  unfold stored. simpl.
  induction Hrest as [|c rest Hc Hrest IH]; [done|]. by destruct c.
Qed.

(** X1. Ingress accounting: of the events of a batch only those published on
    the metrics channel make a call, and each makes exactly one.  The
    messages warned about by a call of [processTraceItems] are exactly the
    messages of the metrics channel that [isValidMetric] rejects, in order;
    the payloads it stores are one per enabled default metric and trace
    item, plus one per message of the metrics channel that [isValidMetric]
    accepts. *)
Theorem ingress_accounting (w : Runtime) (traceItems : list TraceItem) :
  let new := emitted w (ProcessTraceItems traceItems) in
  let events := traceItems ≫= metricEventsOf in
  warned new =
    dce_message <$> filter (λ e, isValidMetric (dce_message e) = false) events
  ∧ length (stored new) =
      enabledCount (this w) * length traceItems
      + length (filter (λ e, isValidMetric (dce_message e) = true) events).
Proof.
  intros new events.
  destruct (ingest_calls traceItems w) as (l & Hc & Hw & Hs).
  destruct (processTraceItems_cases traceItems w)
    as (l' & Hc' & _ & Hcases).
  assert (l' = l) as -> by (rewrite Hc in Hc'; by apply app_inv_head in Hc').
  subst new.
  destruct Hcases as [(_ & -> & _)|[(_ & _ & -> & _)|(_ & _ & _ & -> & _)]];
    rewrite ?warned_app, ?stored_app, ?warned_flushCalls, ?stored_flushCalls,
            ?app_nil_r; done.
Qed.

(** *** Tags *)

Lemma KeyedStore_empty : KeyedStore ∅.
Proof. intros key a Hl. by rewrite lookup_empty in Hl. Qed.

Lemma KeyedStore_storeMetric payload db :
  KeyedStore db → KeyedStore (storeMetric payload db).
Proof.
  intros Hdb. unfold storeMetric.
  destruct (readEvent payload) as [e|]; [|done].
  set (key := aggregationKey (me_type e) (me_name e) (me_tags e)).
  destruct (db !! key) as [a|] eqn:Hk; intros key' a' Hl;
    (destruct (decide (key' = key)) as [->|Hne];
     [rewrite lookup_insert_eq in Hl; injection Hl as <-
     |rewrite lookup_insert_ne in Hl by done; by apply Hdb]).
  - simpl. by apply Hdb.
  - done.
Qed.

Lemma KeyedStore_storeOf window : KeyedStore (storeOf window).
Proof.
  unfold storeOf. induction window as [|payload window IH] using rev_ind.
  - apply KeyedStore_empty.
  - rewrite foldl_app. simpl. by apply KeyedStore_storeMetric.
Qed.

(** A valid event of the metrics channel is stored with the tags of its own
    trace item. *)
Lemma ingest_stores_valid traceItems traceItem event w :
  traceItem ∈ traceItems →
  event ∈ metricEventsOf traceItem →
  isValidMetric (dce_message event) = true →
  ∃ l, calls (ingest traceItems w) = calls w ++ l
       ∧ StoreMetric (taggedPayload (globalTagsOf traceItem) event) ∈ l.
Proof.
  unfold ingest. revert w.
  induction traceItems as [|t ts IH]; intros w Hin He Hv;
    [by apply elem_of_nil in Hin|].
  simpl. destruct (processTraceItem_calls w t) as (defaults & Hc & _).
  apply elem_of_cons in Hin as [->|Hin].
  - destruct (Ingested_foldl processTraceItem ts (processTraceItem w t)
                Ingested_processTraceItem) as [(l2 & Hc2 & _) _ _ _].
    eexists. split; [rewrite Hc2, Hc, <-!app_assoc; reflexivity|].
    apply elem_of_app. right. apply elem_of_app. left.
    apply list_elem_of_fmap. exists event. split; [|done].
    unfold callOf. by rewrite Hv.
  - destruct (IH (processTraceItem w t) Hin He Hv) as (l & Hl & Hmem).
    eexists. split; [rewrite Hl, Hc, <-!app_assoc; reflexivity|].
    rewrite !elem_of_app. auto.
Qed.

(** C10. Tag merge precedence: a message of the metrics channel that
    [isValidMetric] accepts is handed to the store, by the call of
    [processTraceItems] that ingests its trace item, as a payload whose
    tags are the union of the five trace derived tags ([scriptName],
    [executionModel], [outcome], [versionId], [trigger]) of that trace item
    and the message's own tags, the message's value winning on every key
    both have.  Handling the event makes exactly that [storeMetric] call,
    and the store it leaves is the store with that payload stored.  The
    store reads these tags from the payload: the entry under the payload's
    aggregation key is the first sample of the event, with exactly these
    tags, when the key is new, and the existing entry combined with the
    event otherwise.  In every store built by [storeMetric] the entry under
    a key has tags of that key, so the entry of the payload has tags with
    the aggregation key of the merged tags, and the merged tags themselves
    when the key tells tags apart. *)
Theorem tag_merge_precedence (w : Runtime) (traceItems : list TraceItem)
    (traceItem : TraceItem) (event : DiagnosticsChannelEvent) :
  traceItem ∈ traceItems →
  event ∈ metricEventsOf traceItem →
  isValidMetric (dce_message event) = true →
  let globalTags := globalTagsOf traceItem in
  let own := ownProps (js_get "tags" (dce_message event)) in
  let payload := taggedPayload globalTags event in
  ∃ tags e,
    StoreMetric payload ∈ emitted w (ProcessTraceItems traceItems)
    ∧ (∀ w0,
         calls (processEvent globalTags w0 event) =
           calls w0 ++ [StoreMetric payload]
         ∧ metrics (this (processEvent globalTags w0 event)) =
             storeMetric payload (metrics (this w0)))
    ∧ js_get "tags" payload = JObj tags
    ∧ dom globalTags =
        {["scriptName"; "executionModel"; "outcome"; "versionId"; "trigger"]}
    ∧ dom tags = dom globalTags ∪ dom own
    ∧ (∀ k, tags !! k = match own !! k with
                        | Some v => Some v
                        | None => globalTags !! k
                        end)
    ∧ readEvent payload = Some e ∧ me_tags e = tags
    ∧ am_tags (firstSample e) = tags
    ∧ (∀ db : gmap string AggregatedMetric,
         storeMetric payload db
           !! aggregationKey (me_type e) (me_name e) tags =
         Some match db !! aggregationKey (me_type e) (me_name e) tags with
              | None => firstSample e
              | Some a => combine a e
              end)
    ∧ (∀ window, ∃ a,
         storeMetric payload (storeOf window)
           !! aggregationKey (me_type e) (me_name e) tags = Some a
         ∧ aggregationKey (am_type a) (am_name a) (am_tags a) =
             aggregationKey (me_type e) (me_name e) tags
         ∧ (storeOf window !! aggregationKey (me_type e) (me_name e) tags = None →
              am_tags a = tags)
         ∧ ((∀ t n (tg : gmap string jsval) t' n' tg',
               aggregationKey t n tg = aggregationKey t' n' tg' → tg = tg') →
              am_tags a = tags)).
Proof.
  intros Hitem Hevent Hv globalTags own payload.
  pose proof Hv as Hshape.
  apply isValidMetric_true in Hshape
    as (s & name & value & tg & _ & _ & Hty & Hs & Hnm & Hvl & Htg & _).
  assert (∃ t, parseMetricType (JStr s) = Some t) as [t Ht].
  { unfold parseMetricType.
    apply list_elem_of_fmap in Hs as (t & -> & Hin).
    destruct (filter _ MetricType_members) as [|t' l] eqn:Hf; [|by eexists].
    assert (t ∈ filter (λ t0, MetricType_value t0 = MetricType_value t)
                       MetricType_members) as Hin'
      by (by apply list_elem_of_filter).
    rewrite Hf in Hin'. by apply elem_of_nil in Hin'. }
  assert (js_get "tags" payload = JObj (own ∪ globalTags)) as Htags.
  { unfold payload, taggedPayload, js_get. simpl.
    rewrite lookup_insert_ne by done. by rewrite lookup_insert_eq. }
  assert (readEvent payload =
          Some {| me_type := t; me_name := name; me_value := value;
                  me_tags := own ∪ globalTags;
                  me_timestamp := dce_timestamp event;
                  me_options := js_get "options" payload |}) as Hread.
  { unfold readEvent. rewrite Htags.
    unfold payload, taggedPayload, js_get, spreadOver. simpl.
    rewrite lookup_insert_eq.
    rewrite !lookup_insert_ne by done.
    rewrite (right_id_L ∅ (∪)), Hty, Hnm, Hvl.
    cbn [from_option id]. by rewrite Ht. }
  assert (∀ db : gmap string AggregatedMetric,
            storeMetric payload db !! aggregationKey t name (own ∪ globalTags) =
            Some match db !! aggregationKey t name (own ∪ globalTags) with
                 | None => firstSample
                             {| me_type := t; me_name := name; me_value := value;
                                me_tags := own ∪ globalTags;
                                me_timestamp := dce_timestamp event;
                                me_options := js_get "options" payload |}
                 | Some a => combine a
                             {| me_type := t; me_name := name; me_value := value;
                                me_tags := own ∪ globalTags;
                                me_timestamp := dce_timestamp event;
                                me_options := js_get "options" payload |}
                 end) as Hstore.
  { intros db. unfold storeMetric. rewrite Hread. cbn [me_type me_name me_tags].
    destruct (db !! aggregationKey t name (own ∪ globalTags));
      by rewrite lookup_insert_eq. }
  eexists (own ∪ globalTags), _.
  split.
  { destruct (ingest_stores_valid traceItems traceItem event w Hitem Hevent Hv)
      as (l & Hl & Hmem).
    destruct (processTraceItems_cases traceItems w)
      as (l' & Hl' & _ & Hcases).
    assert (l' = l) as -> by (rewrite Hl in Hl'; by apply app_inv_head in Hl').
    destruct Hcases as [(_ & -> & _)|[(_ & _ & -> & _)|(_ & _ & _ & -> & _)]];
      rewrite ?elem_of_app; auto. }
  split. { intros w0. unfold processEvent. by rewrite Hv. }
  split; [done|].
  split. { unfold globalTags, globalTagsOf. rewrite dom_list_to_map_L. simpl.
           set_solver. }
  split. { rewrite dom_union_L. set_solver. }
  split. { intros k. rewrite lookup_union. destruct (own !! k), (globalTags !! k); done. }
  split; [exact Hread|]. split; [done|]. split; [done|].
  split; [exact Hstore|].
  intros window. cbn [me_type me_name me_tags].
  eexists. split; [apply Hstore|].
  pose proof (KeyedStore_storeOf window) as Hkeyed.
  destruct (storeOf window !! aggregationKey t name (own ∪ globalTags))
    as [a|] eqn:Hk.
  - apply Hkeyed in Hk. simpl. split; [done|]. split; [done|].
    intros Hinj. by apply Hinj in Hk.
  - simpl. done.
Qed.

End IngestProperties.

(** ** Properties of whole runs *)

Section RunProperties.
Context `{Host}.
Local Open Scope list_scope.

Ltac run_simpl :=
  cbn [this timers fanouts calls clockReads called on_this set_timers
       set_fanouts set_flushId set_metrics set_flushScheduled flushId metrics
       flushScheduled metricSinks maxBufferSize maxBufferDuration
       defaultMetricsEnabled fst snd] in *.

(** *** What a step emits and what it keeps *)

(** The configuration is fixed by the constructor. *)
Lemma step_config w i :
  metricSinks (this (step w i)) = metricSinks (this w)
  ∧ maxBufferSize (this (step w i)) = maxBufferSize (this w)
  ∧ maxBufferDuration (this (step w i)) = maxBufferDuration (this w)
  ∧ defaultMetricsEnabled (this (step w i)) = defaultMetricsEnabled (this w).
Proof.
  destruct i as [traceItems|g|k results|g]; [| | |simpl; by case_bool_decide].
  - pose proof (Ingested_ingest traceItems w) as Hing.
    destruct (Ingested_config _ _ Hing) as (Hs & Hm & Hd).
    pose proof (Ingested_defaults_enabled _ _ Hing) as He.
    destruct (processTraceItems_cases traceItems w)
      as (l & _ & _ & [(_ & _ & -> & _)|[(_ & _ & _ & ->)|(_ & _ & _ & _ & -> & _)]]);
      run_simpl; auto.
  - simpl. case_bool_decide; [|done]. unfold timerElapsed. run_simpl.
    case_bool_decide; [|done].
    by destruct (performFlush_spec (set_timers (remove_first g (timers w)) w))
      as (_ & -> & _).
  - simpl. destruct (fanouts w !! k); [|done]. case_bool_decide; [|done].
    by destruct (allSettled_spec results (set_fanouts (delete k (fanouts w)) w))
      as (_ & -> & _).
Qed.

Lemma run_config inputs w :
  metricSinks (this (run w inputs)) = metricSinks (this w)
  ∧ maxBufferSize (this (run w inputs)) = maxBufferSize (this w)
  ∧ maxBufferDuration (this (run w inputs)) = maxBufferDuration (this w)
  ∧ defaultMetricsEnabled (this (run w inputs)) = defaultMetricsEnabled (this w).
Proof.
  revert w. induction inputs as [|i inputs IH]; intros w; simpl; [done|].
  destruct (IH (step w i)) as (-> & -> & -> & ->). apply step_config.
Qed.

(** The calls of a step: the stores and warnings of the batch, if any,
    followed by nothing, by the calls of one flush, by one wait, or by one
    error report. *)
Lemma step_emits w i :
  ∃ l tail,
    calls (step w i) = calls w ++ l ++ tail
    ∧ Forall isIngestCall l
    ∧ (tail = []
       ∨ (∃ items, tail = flushCalls (metricSinks (this w)) items)
       ∨ tail = [SchedulerWait (flushId (this w) + 1)%N
                   (num_mul (maxBufferDuration (this w)) (num_of_Z 1000))]
       ∨ ∃ text, tail = [ConsoleError text]).
Proof.
  destruct i as [traceItems|g|k results|g].
  - destruct (processTraceItems_cases traceItems w)
      as (l & Hc & Hl & Hcases).
    pose proof (Ingested_ingest traceItems w) as Hing.
    destruct (Ingested_config _ _ Hing) as (Hs & _ & Hd).
    pose proof (Ingested_flushId _ _ Hing) as Hid.
    exists l. simpl. unfold processTraceItems.
    destruct (afterIngest_spec (ingest traceItems w))
      as [(_ & ->)|[(_ & _ & ->)|(_ & _ & _ & ->)]].
    + destruct (performFlush_spec
        (on_this (λ t, set_flushId (flushId t + 1)%N (set_flushScheduled false t))
                 (ingest traceItems w))) as (-> & _).
      run_simpl. rewrite Hc, Hs. eexists. split; [by rewrite <-app_assoc|].
      split; [done|]. right; left. by eexists.
    + exists []. rewrite Hc. split; [by rewrite app_nil_r|]. auto.
    + unfold scheduleFlush. run_simpl. rewrite Hc, Hid, Hd.
      eexists. split; [by rewrite <-app_assoc|]. auto.
  - exists []. simpl. case_bool_decide;
      [|exists []; rewrite app_nil_r; auto].
    unfold timerElapsed. run_simpl. case_bool_decide;
      [|exists []; run_simpl; rewrite app_nil_r; auto].
    destruct (performFlush_spec (set_timers (remove_first g (timers w)) w))
      as (-> & _).
    run_simpl. eexists. split; [done|]. split; [done|]. right; left. by eexists.
  - exists []. simpl. destruct (fanouts w !! k);
      [|exists []; rewrite app_nil_r; auto].
    case_bool_decide; [|exists []; rewrite app_nil_r; auto].
    destruct (allSettled_spec results (set_fanouts (delete k (fanouts w)) w))
      as (-> & _).
    run_simpl. case_bool_decide.
    + eexists. split; [done|]. split; [done|]. right; right; right. by eexists.
    + exists []. auto.
  - exists [], []. simpl. case_bool_decide; run_simpl; rewrite app_nil_r; auto.
Qed.

Lemma step_calls_emitted w i : calls (step w i) = calls w ++ emitted w i.
Proof.
  destruct (step_emits w i) as (l & tail & Hc & _).
  unfold emitted. by rewrite Hc, drop_app_length.
Qed.

Lemma run_snoc w inputs i : run w (inputs ++ [i]) = step (run w inputs) i.
Proof. unfold run. by rewrite foldl_app. Qed.

(** *** The scheduler invariant *)

Lemma remove_first_elem_of_ne (x g : N) l :
  x ≠ g → x ∈ remove_first g l ↔ x ∈ l.
Proof.
  intros Hne. induction l as [|y l IH]; simpl; [done|].
  case_bool_decide as Hy.
  - subst y. rewrite elem_of_cons. naive_solver.
  - rewrite !elem_of_cons, IH. done.
Qed.

Lemma remove_first_elem_of (x g : N) l : x ∈ remove_first g l → x ∈ l.
Proof.
  induction l as [|y l IH]; simpl; [done|].
  case_bool_decide as Hy.
  - apply list_elem_of_further.
  - rewrite !elem_of_cons. naive_solver.
Qed.

Lemma remove_first_NoDup g l : NoDup l → NoDup (remove_first g l).
Proof.
  induction 1 as [|y l Hy Hl IH]; simpl; [constructor|].
  case_bool_decide as Hg; [done|].
  constructor; [|done]. intros Hin. apply Hy.
  by apply remove_first_elem_of_ne in Hin.
Qed.

Lemma remove_first_not_elem_of g l : NoDup l → g ∉ remove_first g l.
Proof.
  induction 1 as [|y l Hy Hl IH]; simpl; [by intros ?%elem_of_nil|].
  case_bool_decide as Hg; [by subst y|].
  rewrite elem_of_cons. naive_solver.
Qed.

Lemma bounded_fresh w :
  TimersBounded w → (flushId (this w) + 1)%N ∉ timers w.
Proof.
  unfold TimersBounded. rewrite Forall_forall. intros Hb Hin.
  apply Hb in Hin. lia.
Qed.

Lemma SchedulerInv_boot options : SchedulerInv (boot options).
Proof.
  split; simpl.
  - constructor.
  - constructor.
  - by intros ?%elem_of_nil.
  - unfold getMetricCount. rewrite map_size_empty. lia.
  - unfold flushCount. simpl. lia.
Qed.

Lemma SchedulerInv_step w i : SchedulerInv w → SchedulerInv (step w i).
Proof.
  intros [Hnd Hb Hlive Hbuf Hgen].
  pose proof (step_TimersBounded w i Hb) as Hb'.
  pose proof (step_calls_emitted w i) as Hcalls.
  destruct i as [traceItems|g|k results|g].
  - pose proof (Ingested_ingest traceItems w) as Hing.
    pose proof (Ingested_flushId _ _ Hing) as Hid.
    pose proof (Ingested_flushScheduled _ _ Hing) as Hsch.
    pose proof (ing_timers _ _ Hing) as Hti.
    destruct (Ingested_config _ _ Hing) as (_ & Hmax & _).
    destruct (processTraceItems_cases traceItems w)
      as (l & Hc & Hl & [(Hf & He & Ht & Hti' & _)
                        |[(Hf & Hs & He & Hw')
                        |(Hf & Hs & Hcnt & He & Ht & Hti' & _)]]).
    + split; [by rewrite Hti'|done| | |].
      * rewrite Ht, Hti'. run_simpl.
        intros Hin. by apply bounded_fresh in Hin.
      * rewrite Ht. run_simpl. unfold getMetricCount.
        rewrite map_size_empty. lia.
      * rewrite Hcalls, He, Ht. run_simpl.
        rewrite !flushCount_app, (flushCount_ingest l), flushCount_flushCalls by done.
        destruct (flushScheduled (this w)); lia.
    + rewrite Hw' in *. split; [by rewrite Hti|done| | |].
      * by rewrite Hsch, Hid, Hti.
      * intros Hpos. split; [|done]. rewrite Hsch.
        destruct Hs as [Hs|Hs]; [done|lia].
      * rewrite Hc, flushCount_app, (flushCount_ingest l), Hsch, Hid by done.
        destruct (flushScheduled (this w)); lia.
    + split; [|done| | |].
      * rewrite Hti'. apply NoDup_app. split; [done|].
        split; [|apply NoDup_singleton].
        intros x Hx ->%list_elem_of_singleton. by apply bounded_fresh in Hx.
      * rewrite Ht. run_simpl. done.
      * intros _. rewrite Ht. run_simpl. split; [done|].
        unfold bufferFull in *. rewrite Ht. run_simpl. done.
      * rewrite Hcalls, He, Ht. run_simpl.
        rewrite !flushCount_app, (flushCount_ingest l) by done.
        rewrite Hs in Hgen. unfold flushCount at 2. simpl. lia.
  - simpl in *. case_bool_decide as Hin; [|by split].
    unfold timerElapsed in *. run_simpl. case_bool_decide as Hg.
    + subst g.
      destruct (performFlush_spec
        (set_timers (remove_first (flushId (this w)) (timers w)) w))
        as (Hpc & Hpt & Hpti & _).
      run_simpl.
      split; [rewrite Hpti; by apply remove_first_NoDup|done| | |].
      * rewrite Hpt, Hpti. run_simpl.
        intros Hin'. by apply remove_first_not_elem_of in Hin'.
      * rewrite Hpt. run_simpl. unfold getMetricCount.
        rewrite map_size_empty. lia.
      * rewrite Hpc, Hpt. run_simpl.
        rewrite flushCount_app, flushCount_flushCalls.
        apply Hlive in Hin. rewrite Hin in Hgen. lia.
    + run_simpl. split; run_simpl;
        [by apply remove_first_NoDup|done| |done|done].
      intros Hin'. by apply Hlive, (remove_first_elem_of _ g).
  - simpl in *. destruct (fanouts w !! k); [|by split].
    case_bool_decide; [|by split].
    destruct (allSettled_spec results (set_fanouts (delete k (fanouts w)) w))
      as (Hac & Hat & Hati & _).
    run_simpl.
    split; [by rewrite Hati|done|by rewrite Hat, Hati| |].
    * unfold bufferFull in *. rewrite Hat. done.
    * rewrite Hac, Hat, flushCount_app.
      case_bool_decide; unfold flushCount at 2; simpl; lia.
  - simpl in *. case_bool_decide as Hin; [|by split].
    split; run_simpl; [by apply remove_first_NoDup|done| |done|done].
    intros Hin'. by apply Hlive, (remove_first_elem_of _ g).
Qed.

Lemma SchedulerInv_run inputs w : SchedulerInv w → SchedulerInv (run w inputs).
Proof.
  revert w. induction inputs as [|i inputs IH]; intros w Hw; simpl; [done|].
  by apply IH, SchedulerInv_step.
Qed.

(** A scheduled flush still has its timer pending, unless its wait was
    rejected. *)
Lemma scheduled_timer_pending options inputs :
  flushScheduled (this (run (boot options) inputs)) = true →
  flushId (this (run (boot options) inputs)) ∈ timers (run (boot options) inputs)
  ∨ WaitRejected (flushId (this (run (boot options) inputs))) ∈ inputs.
Proof.
  induction inputs as [|i inputs IH] using rev_ind; [done|].
  rewrite run_snoc. set (w := run (boot options) inputs) in *.
  assert (∀ g, WaitRejected g ∈ inputs → WaitRejected g ∈ inputs ++ [i])
    as Hmore by (intros g Hg; apply elem_of_app; by left).
  destruct i as [traceItems|g|k results|g].
  - pose proof (Ingested_ingest traceItems w) as Hing.
    pose proof (Ingested_flushId _ _ Hing) as Hid.
    pose proof (Ingested_flushScheduled _ _ Hing) as Hsch.
    pose proof (ing_timers _ _ Hing) as Hti.
    destruct (processTraceItems_cases traceItems w)
      as (l & _ & _ & [(_ & _ & -> & _)
                      |[(_ & _ & _ & ->)|(_ & _ & _ & _ & -> & -> & _)]]).
    + done.
    + rewrite Hsch, Hid, Hti. intros Hs. destruct (IH Hs); auto.
    + run_simpl. intros _. left. apply elem_of_app. right.
      by apply list_elem_of_singleton.
  - simpl. case_bool_decide as Hin; [|intros Hs; destruct (IH Hs); auto].
    unfold timerElapsed. run_simpl. case_bool_decide as Hg.
    + by destruct (performFlush_spec
        (set_timers (remove_first g (timers w)) w)) as (_ & -> & _).
    + run_simpl. intros Hs. destruct (IH Hs) as [Hl|Hr]; [left|auto].
      apply remove_first_elem_of_ne; [congruence|done].
  - simpl. destruct (fanouts w !! k); [|intros Hs; destruct (IH Hs); auto].
    case_bool_decide; [|intros Hs; destruct (IH Hs); auto].
    destruct (allSettled_spec results (set_fanouts (delete k (fanouts w)) w))
      as (_ & -> & -> & _).
    run_simpl. intros Hs. destruct (IH Hs); auto.
  - simpl. case_bool_decide as Hin; [|intros Hs; destruct (IH Hs); auto].
    run_simpl. intros Hs.
    destruct (decide (g = flushId (this w))) as [->|Hne].
    + right. apply elem_of_app. right. by apply list_elem_of_singleton.
    + destruct (IH Hs) as [Hl|Hr]; [left|auto].
      apply remove_first_elem_of_ne; [congruence|done].
Qed.

(** *** What the invariant gives *)

(** X3. Buffered metrics have a flush scheduled: in every runtime reached
    from the constructor a non empty buffer has a flush scheduled, and the
    timer that carries the live generation is pending unless the wait of
    that generation was rejected; when no wait of the run was rejected it
    is pending, and its elapse will flush the buffer. *)
Theorem buffered_metrics_scheduled (options : MetricTailOptions)
    (inputs : list Input) :
  let w := run (boot options) inputs in
  0 < getMetricCount (metrics (this w)) →
  flushScheduled (this w) = true
  ∧ (flushId (this w) ∈ timers w ∨ WaitRejected (flushId (this w)) ∈ inputs)
  ∧ (noWaitRejected inputs → flushId (this w) ∈ timers w).
Proof.
  intros w Hpos.
  destruct (SchedulerInv_run inputs _ (SchedulerInv_boot options))
    as [_ _ _ Hbuf _].
  destruct (Hbuf Hpos) as [Hs _].
  pose proof (scheduled_timer_pending options inputs Hs) as Hp. fold w in Hp.
  split; [done|]. split; [done|].
  intros Hno. destruct Hp as [?|Hr]; [done|]. by apply Hno in Hr.
Qed.

Lemma count_occurrences (x : N) l :
  NoDup l →
  length (filter (λ g, g = x) l) = if bool_decide (x ∈ l) then 1 else 0.
Proof.
  induction 1 as [|y l Hy Hl IH]; [done|].
  rewrite filter_cons. destruct (decide (y = x)) as [->|Hne]; simpl.
  - rewrite IH, bool_decide_eq_false_2 by done.
    rewrite bool_decide_eq_true_2 by apply list_elem_of_here. done.
  - rewrite IH. repeat case_bool_decide; try done;
      rewrite elem_of_cons in *; naive_solver.
Qed.

(** X4. At most one live timer: in every runtime reached from the
    constructor, also after immediate flushes have left stale timers
    behind, the pending timers are pairwise distinct, none is ahead of the
    live generation, and at most one of them carries the live generation:
    none while no flush is scheduled, and exactly one while a flush is
    scheduled whose wait was not rejected. *)
Theorem at_most_one_live_timer (options : MetricTailOptions)
    (inputs : list Input) :
  let w := run (boot options) inputs in
  let live := length (filter (λ g, g = flushId (this w)) (timers w)) in
  NoDup (timers w)
  ∧ Forall (λ g, (g ≤ flushId (this w))%N) (timers w)
  ∧ (live ≤ 1)%nat
  ∧ (flushScheduled (this w) = false → live = 0)
  ∧ (flushScheduled (this w) = true →
       WaitRejected (flushId (this w)) ∉ inputs → live = 1).
Proof.
  intros w live.
  destruct (SchedulerInv_run inputs _ (SchedulerInv_boot options))
    as [Hnd Hb Hlive _ _]. fold w in Hnd, Hb, Hlive.
  pose proof (scheduled_timer_pending options inputs) as Hp. fold w in Hp.
  split; [done|]. split; [done|].
  unfold live. rewrite count_occurrences by done.
  split; [case_bool_decide; lia|].
  split.
  - intros Hs. rewrite bool_decide_eq_false_2; [done|].
    intros Hin. apply Hlive in Hin. congruence.
  - intros Hs Hno. rewrite bool_decide_eq_true_2; [done|].
    destruct (Hp Hs); done.
Qed.

(** X5. Every flush has its own generation: in every run the number of
    flushes performed so far, immediate and scheduled together, together
    with the one that is scheduled, never exceeds the generation. *)
Theorem flushes_within_generation (options : MetricTailOptions)
    (inputs : list Input) :
  let w := run (boot options) inputs in
  (flushCount (calls w) + (if flushScheduled (this w) then 1 else 0)
   ≤ N.to_nat (flushId (this w)))%nat.
Proof.
  intros w.
  by destruct (SchedulerInv_run inputs _ (SchedulerInv_boot options)).
Qed.

(** X6. The buffer stays below the threshold: between steps the store is
    empty or holds fewer than [maxBufferSize] distinct metrics; a batch that
    reaches the threshold is flushed within its own call. *)
Theorem buffer_below_threshold (options : MetricTailOptions)
    (inputs : list Input) :
  let w := run (boot options) inputs in
  getMetricCount (metrics (this w)) = 0
  ∨ num_ge (num_of_nat (getMetricCount (metrics (this w))))
           (maxBufferSize (constructor options)) = false.
Proof.
  intros w.
  destruct (SchedulerInv_run inputs _ (SchedulerInv_boot options))
    as [_ _ _ Hbuf _]. fold w in Hbuf.
  destruct (run_config inputs (boot options)) as (_ & Hmax & _).
  fold w in Hmax. simpl in Hmax.
  destruct (decide (getMetricCount (metrics (this w)) = 0)) as [?|Hne]; [by left|].
  right. destruct Hbuf as [_ Hfull]; [lia|].
  unfold bufferFull in Hfull. by rewrite Hmax in Hfull.
Qed.

(** X7. The live timer delivers: while the timer that carries the live
    generation is pending, a flush is scheduled, and the elapse of that
    timer performs the flush: it makes exactly the calls of one flush of
    the whole store (the snapshot, the clear, and the fanout to the
    configured sinks up to the first that throws), leaves the store empty
    and no flush scheduled, keeps the generation, and is no longer
    pending. *)
Theorem live_timer_flushes (options : MetricTailOptions) (inputs : list Input) :
  let w := run (boot options) inputs in
  let w' := step w (TimerElapsed (flushId (this w))) in
  flushId (this w) ∈ timers w →
  flushScheduled (this w) = true
  ∧ emitted w (TimerElapsed (flushId (this w))) =
      flushCalls (opt_sinks options) (toMetricPayloads (metrics (this w)))
  ∧ getMetricCount (metrics (this w')) = 0
  ∧ flushScheduled (this w') = false
  ∧ flushId (this w') = flushId (this w)
  ∧ flushId (this w) ∉ timers w'.
Proof.
  intros w w' Hin.
  destruct (SchedulerInv_run inputs _ (SchedulerInv_boot options))
    as [Hnd _ Hlive _ _]. fold w in Hnd, Hlive.
  destruct (run_config inputs (boot options)) as (Hsinks & _).
  fold w in Hsinks. simpl in Hsinks.
  split; [by apply Hlive|].
  subst w'. unfold emitted. simpl.
  rewrite bool_decide_eq_true_2 by done.
  unfold timerElapsed. run_simpl. rewrite bool_decide_eq_true_2 by done.
  destruct (performFlush_spec
    (set_timers (remove_first (flushId (this w)) (timers w)) w))
    as (-> & -> & -> & _).
  run_simpl. rewrite drop_app_length, Hsinks.
  split; [done|]. split; [by unfold getMetricCount; rewrite map_size_empty|].
  split; [done|]. split; [done|]. by apply remove_first_not_elem_of.
Qed.

(** X10. An empty batch is a no-op: in every runtime reached from the
    constructor whose buffer is below the threshold, [processTraceItems([])]
    stores nothing, schedules nothing, flushes nothing and leaves the
    runtime exactly as it is. *)
Theorem empty_batch_noop (options : MetricTailOptions) (inputs : list Input) :
  let w := run (boot options) inputs in
  bufferFull w = false →
  step w (ProcessTraceItems []) = w.
Proof.
  intros w Hfull.
  destruct (SchedulerInv_run inputs _ (SchedulerInv_boot options))
    as [_ _ _ Hbuf _]. fold w in Hbuf.
  simpl. unfold processTraceItems, ingest. simpl. unfold afterIngest.
  rewrite Hfull.
  destruct (flushScheduled (this w)) eqn:Hs; [done|].
  case_bool_decide as Hpos; [|done].
  destruct (Hbuf Hpos) as [? _]. congruence.
Qed.

(** *** Waits *)

Lemma waitsOf_app l1 l2 : waitsOf (l1 ++ l2) = waitsOf l1 ++ waitsOf l2.
Proof. apply omap_app. Qed.

Lemma waitsOf_ingest l : Forall isIngestCall l → waitsOf l = [].
Proof.
  induction 1 as [|c l Hc Hl IH]; [done|].
  destruct c; try done; exact IH.
Qed.

Lemma waitsOf_flushCalls sinks items : waitsOf (flushCalls sinks items) = [].
Proof.
  destruct (flushCalls_tail sinks items) as (rest & -> & Hrest).
  unfold waitsOf. simpl.
  induction Hrest as [|c rest Hc Hrest IH]; [done|]. by destruct c.
Qed.

Lemma duration_capped options :
  num_le (num_mul (maxBufferDuration (constructor options)) (num_of_Z 1000))
         (num_of_Z 30000) = true.
Proof.
  apply product_at_most_30000. simpl.
  destruct (opt_maxBufferDuration options) as [[q| | |]|]; simpl; try done.
  destruct (Qeq_bool q 0); simpl; [done|].
  destruct (Qle_bool q (inject_Z 30)) eqn:Hq; simpl; done.
Qed.

(** X8. No wait exceeds thirty seconds: every [scheduler.wait] call of every
    run asks for the double [maxBufferDuration * 1000] with the duration
    the constructor fixed, and that product, rounded as the multiplication
    of doubles rounds it, is at most [30000]. *)
Theorem wait_at_most_30s (options : MetricTailOptions) (inputs : list Input)
    (ms : number) :
  ms ∈ waitsOf (calls (run (boot options) inputs)) →
  ms = num_mul (maxBufferDuration (constructor options)) (num_of_Z 1000)
  ∧ num_le ms (num_of_Z 30000) = true.
Proof.
  assert (∀ w, maxBufferDuration (this w) = maxBufferDuration (constructor options) →
               Forall (λ ms, ms = num_mul (maxBufferDuration (constructor options))
                                          (num_of_Z 1000))
                      (waitsOf (calls w)) →
               Forall (λ ms, ms = num_mul (maxBufferDuration (constructor options))
                                          (num_of_Z 1000))
                      (waitsOf (calls (run w inputs)))) as Hrun.
  { induction inputs as [|i inputs IH]; intros w Hd Hw; simpl; [done|].
    apply IH.
    - destruct (step_config w i) as (_ & _ & -> & _). done.
    - destruct (step_emits w i)
        as (l & tail & -> & Hl & [->|[[items ->]|[->|[text ->]]]]);
        rewrite !waitsOf_app, (waitsOf_ingest l) by done;
        rewrite ?waitsOf_flushCalls, ?app_nil_r; try done.
      apply Forall_app. split; [done|]. repeat constructor. by rewrite Hd. }
  intros Hin.
  specialize (Hrun (boot options) eq_refl (Forall_nil_2 _)).
  rewrite Forall_forall in Hrun. apply Hrun in Hin as ->.
  split; [done|apply duration_capped].
Qed.

(** *** A rejected wait *)

Lemma Stranded_step w i :
  match i with
  | ProcessTraceItems traceItems => bufferFull (ingest traceItems w) = false
  | _ => True
  end →
  Stranded w →
  Stranded (step w i)
  ∧ flushCount (emitted w i) = 0 ∧ waitsOf (emitted w i) = [].
Proof.
  intros Hbelow [Hs Hno].
  destruct i as [traceItems|g|k results|g].
  - pose proof (Ingested_ingest traceItems w) as Hing.
    destruct (processTraceItems_cases traceItems w)
      as (l & _ & Hl & [(Hf & _)|[(_ & _ & -> & ->)|(_ & Hs' & _)]]);
      [congruence| |congruence].
    split; [|by rewrite flushCount_ingest, waitsOf_ingest].
    split.
    + by rewrite (Ingested_flushScheduled _ _ Hing).
    + by rewrite (Ingested_flushId _ _ Hing), (ing_timers _ _ Hing).
  - unfold emitted. simpl. case_bool_decide as Hin;
      [|by rewrite drop_all].
    unfold timerElapsed. run_simpl.
    rewrite bool_decide_eq_false_2 by (intros ->; done).
    run_simpl. rewrite drop_all. split; [|done]. split; [done|].
    intros Hin'. by apply Hno, (remove_first_elem_of _ g).
  - unfold emitted. simpl. destruct (fanouts w !! k);
      [|by rewrite drop_all].
    case_bool_decide; [|by rewrite drop_all].
    destruct (allSettled_spec results (set_fanouts (delete k (fanouts w)) w))
      as (Hac & Hat & Hati & _).
    rewrite Hac. run_simpl. rewrite drop_app_length.
    split; [split; by rewrite Hat, ?Hati|].
    by case_bool_decide.
  - unfold emitted. simpl. case_bool_decide as Hin;
      [|by rewrite drop_all].
    run_simpl. rewrite drop_all. split; [|done]. split; [done|].
    intros Hin'. by apply Hno, (remove_first_elem_of _ g).
Qed.

Lemma Stranded_run inputs w :
  belowThreshold w inputs → Stranded w →
  Stranded (run w inputs)
  ∧ flushCount (calls (run w inputs)) = flushCount (calls w)
  ∧ waitsOf (calls (run w inputs)) = waitsOf (calls w).
Proof.
  revert w. induction inputs as [|i inputs IH]; intros w Hbelow Hw; simpl;
    [done|].
  destruct Hbelow as [Hi Hrest].
  destruct (Stranded_step w i Hi Hw) as (Hw' & Hf & Hwt).
  destruct (IH _ Hrest Hw') as (? & -> & ->).
  rewrite step_calls_emitted, flushCount_app, waitsOf_app, Hf, Hwt, app_nil_r.
  split; [done|]. split; [lia|done].
Qed.

(** X16. A rejected wait strands the buffer: when the wait of the live
    generation rejects, the [catch] of [scheduleFlush] swallows the
    rejection: no call is made and the object is left as it is, so a flush
    still counts as scheduled although no timer of its generation is
    pending any more.  From then on, whatever happens while the buffer
    stays below the size threshold, no flush is performed and no new wait
    is requested: the buffer is only flushed once it fills up. *)
Theorem rejected_wait_strands_buffer (options : MetricTailOptions)
    (inputs later : list Input) :
  let w := run (boot options) inputs in
  let w' := step w (WaitRejected (flushId (this w))) in
  flushId (this w) ∈ timers w →
  belowThreshold w' later →
  emitted w (WaitRejected (flushId (this w))) = []
  ∧ this w' = this w
  ∧ flushScheduled (this (run w' later)) = true
  ∧ (flushId (this (run w' later)) ∉ timers (run w' later))
  ∧ flushCount (calls (run w' later)) = flushCount (calls w)
  ∧ waitsOf (calls (run w' later)) = waitsOf (calls w).
Proof.
  intros w w' Hin Hbelow.
  destruct (SchedulerInv_run inputs _ (SchedulerInv_boot options))
    as [Hnd _ Hlive _ _]. fold w in Hnd, Hlive.
  assert (w' = set_timers (remove_first (flushId (this w)) (timers w)) w)
    as Hw' by (subst w'; simpl; by rewrite bool_decide_eq_true_2).
  assert (Stranded w') as Hst.
  { rewrite Hw'. split; run_simpl; [by apply Hlive|].
    by apply remove_first_not_elem_of. }
  destruct (Stranded_run later w' Hbelow Hst) as ([Hs Hno] & Hf & Hwt).
  split. { unfold emitted. fold w'. rewrite Hw'. run_simpl. by rewrite drop_all. }
  split; [by rewrite Hw'|].
  split; [done|]. split; [done|].
  rewrite Hf, Hwt, Hw'. done.
Qed.

(** *** What the sinks receive *)

Lemma snapshotsOf_app l1 l2 :
  snapshotsOf (l1 ++ l2) = snapshotsOf l1 ++ snapshotsOf l2.
Proof. apply omap_app. Qed.

Lemma sentBatches_ingest l : Forall isIngestCall l → sentBatches l = [].
Proof.
  induction 1 as [|c l Hc Hl IH]; [done|].
  destruct c; try done; exact IH.
Qed.

Lemma snapshotsOf_ingest l : Forall isIngestCall l → snapshotsOf l = [].
Proof.
  induction 1 as [|c l Hc Hl IH]; [done|].
  destruct c; try done; exact IH.
Qed.

Lemma sentBatches_flushCalls sinks items :
  sentBatches (flushCalls sinks items) =
    if bool_decide (length items = 0) then []
    else (λ sink, (sink, items)) <$> attempted sinks.
Proof.
  unfold flushCalls, fanoutCalls. rewrite sentBatches_app. simpl.
  case_bool_decide; [done|].
  rewrite sentBatches_app, sentBatches_sends.
  destruct (thrownBy sinks); simpl; by rewrite app_nil_r.
Qed.

Lemma snapshotsOf_flushCalls sinks items :
  snapshotsOf (flushCalls sinks items) = [items].
Proof.
  destruct (flushCalls_tail sinks items) as (rest & -> & Hrest).
  unfold snapshotsOf. simpl. f_equal.
  induction Hrest as [|c rest Hc Hrest IH]; [done|]. by destruct c.
Qed.

(** X9. What the sinks receive: in the trace of every run the
    [sendMetrics] calls are, in order and for each non empty snapshot
    taken, one call with that snapshot as payload per configured sink up to
    and including the first sink that throws; an empty snapshot is sent to
    nobody.  When no configured sink throws, that is one call per
    configured sink. *)
Theorem sinks_receive_each_snapshot (options : MetricTailOptions)
    (inputs : list Input) :
  let trace := calls (run (boot options) inputs) in
  sentBatches trace =
    filter (λ items, items ≠ []) (snapshotsOf trace)
      ≫= (λ items, (λ sink, (sink, items)) <$> attempted (opt_sinks options))
  ∧ (thrownBy (opt_sinks options) = None →
       attempted (opt_sinks options) = opt_sinks options).
Proof.
  assert (∀ w, metricSinks (this w) = opt_sinks options →
               sentBatches (calls w) =
                 filter (λ items, items ≠ []) (snapshotsOf (calls w))
                   ≫= (λ items, (λ sink, (sink, items))
                                  <$> attempted (opt_sinks options)) →
               sentBatches (calls (run w inputs)) =
                 filter (λ items, items ≠ []) (snapshotsOf (calls (run w inputs)))
                   ≫= (λ items, (λ sink, (sink, items))
                                  <$> attempted (opt_sinks options)))
    as Hrun.
  { induction inputs as [|i inputs IH]; intros w Hs Hw; simpl; [done|].
    apply IH.
    - destruct (step_config w i) as (-> & _). done.
    - destruct (step_emits w i)
        as (l & tail & -> & Hl & [->|[[items ->]|[->|[text ->]]]]);
        rewrite !sentBatches_app, !snapshotsOf_app,
                (sentBatches_ingest l), (snapshotsOf_ingest l) by done;
        rewrite ?sentBatches_flushCalls, ?snapshotsOf_flushCalls;
        rewrite ?app_nil_r; try done.
      rewrite filter_app, bind_app, <-Hw. f_equal.
      rewrite Hs. destruct items as [|item items]; [done|].
      simpl. by rewrite app_nil_r. }
  intros trace. split; [by apply Hrun|apply attempted_all].
Qed.

(** *** Error reports *)



End RunProperties.

(** ** Properties of [DatadogMetricSink] *)

Section DatadogProperties.
Local Open Scope list_scope.

Lemma truthy_Some o :
  Datadog.truthy o = true ↔ ∃ s, o = Some s ∧ s ≠ ""%string.
Proof.
  unfold Datadog.truthy. destruct o as [s|]; [|naive_solver].
  rewrite negb_true_iff, String.eqb_neq. naive_solver.
Qed.

Lemma keyMissing_truthy key :
  Datadog.keyMissing key = negb (Datadog.truthy key).
Proof.
  unfold Datadog.keyMissing, Datadog.truthy. destruct key as [s|]; [|done].
  destruct s; done.
Qed.

(** X11. Key resolution: the constructor takes the API key from the first
    of [options.apiKey], [env.DD_API_KEY] and [env.DATADOG_API_KEY] that is
    a non empty string, so an empty or missing option does not hide a key of
    the environment; it logs its error exactly when none of the three is,
    and then stores a key that [sendToDatadog] will find missing. *)
Theorem datadog_key_resolution (env : Datadog.Env)
    (options : option Datadog.DatadogMetricSinkOptions) :
  let candidates :=
    [options ≫= Datadog.opt_apiKey; Datadog.DD_API_KEY env;
     Datadog.DATADOG_API_KEY env] in
  let sink := (Datadog.constructor env options).1 in
  let made := (Datadog.constructor env options).2 in
  match filter (λ o, Datadog.truthy o = true) candidates with
  | first :: _ =>
      Datadog.apiKey sink = first
      ∧ Datadog.keyMissing (Datadog.apiKey sink) = false
      ∧ made = []
  | [] =>
      Datadog.keyMissing (Datadog.apiKey sink) = true
      ∧ made = [Datadog.ConsoleError Datadog.keyNotFound]
  end.
Proof.
  intros candidates sink made. subst candidates sink made.
  unfold Datadog.constructor. simpl.
  rewrite !keyMissing_truthy. unfold Datadog.or.
  rewrite !filter_cons, filter_nil.
  destruct (Datadog.truthy (options ≫= Datadog.opt_apiKey)) eqn:H1;
    [|destruct (Datadog.truthy (Datadog.DD_API_KEY env)) eqn:H2;
      [|destruct (Datadog.truthy (Datadog.DATADOG_API_KEY env)) eqn:H3]];
    simpl; rewrite ?H1, ?H2, ?H3; done.
Qed.

(** X12. One request at most, never without a key: a call of [sendMetrics]
    makes no [fetch] for an empty batch or without a key, and otherwise
    exactly one, to the configured endpoint, with the stored non empty key
    and the whole batch. *)
Theorem datadog_one_request (sink : Datadog.DatadogMetricSink)
    (payloads : list ExportedMetricPayload) (network : Datadog.FetchResult) :
  let made := (Datadog.sendMetrics sink payloads network).1 in
  filter Datadog.isFetch made =
    match payloads, Datadog.apiKey sink with
    | _ :: _, Some key =>
        if bool_decide (key = ""%string) then []
        else [Datadog.Fetch (Datadog.endpoint sink) key payloads]
    | _, _ => []
    end.
Proof.
  unfold Datadog.sendMetrics, Datadog.sendToDatadog.
  destruct payloads as [|p payloads]; [done|].
  rewrite bool_decide_eq_false_2 by done.
  rewrite keyMissing_truthy. unfold Datadog.truthy.
  destruct (Datadog.apiKey sink) as [key|]; [|done].
  case_bool_decide as Hk.
  - subst key. done.
  - apply String.eqb_neq in Hk. rewrite Hk. simpl.
    destruct network as [[] status [body|reason]|reason]; done.
Qed.

(** X13. How [sendMetrics] settles: it never rejects without having made
    its request; a response that is [ok] fulfils the promise whatever its
    status and body; and every rejection is an [Error] whose message starts
    with ["Failed to send metrics to Datadog: "], followed, for a response
    that is not [ok] and whose body can be read, by
    ["Datadog API error (<status>): <body>"]. *)
Theorem datadog_settles (sink : Datadog.DatadogMetricSink)
    (payloads : list ExportedMetricPayload) (network : Datadog.FetchResult) :
  let made := (Datadog.sendMetrics sink payloads network).1 in
  let result := (Datadog.sendMetrics sink payloads network).2 in
  (∀ reason, result = Rejected reason →
     made = [Datadog.Fetch (Datadog.endpoint sink)
               (default ""%string (Datadog.apiKey sink)) payloads]
     ∧ ∃ cause, reason = ErrorObject
                  ("Failed to send metrics to Datadog: " +:+ cause)%string)
  ∧ (∀ status text, network = Datadog.FetchResolved true status text →
       result = Fulfilled)
  ∧ (∀ status body,
       network = Datadog.FetchResolved false status (Datadog.TextResolved body) →
       payloads ≠ [] → Datadog.keyMissing (Datadog.apiKey sink) = false →
       result = Rejected (ErrorObject
                  ("Failed to send metrics to Datadog: Datadog API error ("
                   +:+ pretty status +:+ "): " +:+ body)%string))
  ∧ (∀ reason, network = Datadog.FetchRejected reason →
       payloads ≠ [] → Datadog.keyMissing (Datadog.apiKey sink) = false →
       result = Rejected (ErrorObject
                  ("Failed to send metrics to Datadog: "
                   +:+ sinkError reason)%string)).
Proof.
  unfold Datadog.sendMetrics, Datadog.sendToDatadog.
  case_bool_decide as Hempty.
  { apply length_zero_iff_nil in Hempty. subst payloads. simpl.
    repeat split; try done. }
  destruct (Datadog.keyMissing (Datadog.apiKey sink)) eqn:Hkey.
  { simpl. repeat split; try done. }
  destruct network as [[] status [body|reason]|reason]; simpl;
    repeat split; try done;
    try (intros ? [= <-]; split; [done|by eexists]);
    try (by intros ? ? [= <- <-]);
    try (by intros ? [= <-]);
    match goal with
    | Hr : Rejected _ = Rejected _ |- _ => injection Hr as <-; by eexists
    end.
Qed.

(** X14. A sink without a key drops silently: when every Datadog sink of
    a [MetricsTail] lacks its API key, each [sendMetrics] of a non empty
    batch only warns that it drops the batch and fulfils its promise,
    whatever the network would answer, so the flush that awaited them makes
    no [console.error] call: the batch is lost and reported as delivered. *)
Theorem datadog_keyless_drop_is_silent `{Host} (w : Runtime) (k : nat)
    (sinks : list MetricSink) (datadogs : list Datadog.DatadogMetricSink)
    (items : list ExportedMetricPayload)
    (network : Datadog.DatadogMetricSink → Datadog.FetchResult) :
  fanouts w !! k = Some sinks →
  length datadogs = length sinks →
  Forall (λ sink, Datadog.keyMissing (Datadog.apiKey sink) = true) datadogs →
  items ≠ [] →
  let outcomes :=
    (λ sink, Datadog.sendMetrics sink items (network sink)) <$> datadogs in
  Forall (λ outcome,
            outcome =
              ([Datadog.ConsoleWarn
                  ("Datadog API key was not found. Dropping "
                   +:+ pretty (length items) +:+ " metrics.")%string],
               Fulfilled)) outcomes
  ∧ emitted w (FanoutSettled k (snd <$> outcomes)) = [].
Proof.
  intros Hk Hlen Hkeys Hitems outcomes.
  assert (Forall (λ outcome,
            outcome =
              ([Datadog.ConsoleWarn
                  ("Datadog API key was not found. Dropping "
                   +:+ pretty (length items) +:+ " metrics.")%string],
               Fulfilled)) outcomes) as Hout.
  { subst outcomes. apply Forall_fmap.
    eapply Forall_impl; [exact Hkeys|]. intros sink Hmissing. simpl.
    unfold Datadog.sendMetrics, Datadog.sendToDatadog.
    rewrite bool_decide_eq_false_2 by (by destruct items).
    by rewrite Hmissing. }
  split; [done|].
  assert (rejections (snd <$> outcomes) = []) as Hrej.
  { clear -Hout. induction Hout as [|o outcomes -> _ IH]; [done|exact IH]. }
  unfold emitted. simpl. rewrite Hk.
  rewrite bool_decide_eq_true_2
    by (subst outcomes; by rewrite !length_fmap).
  destruct (allSettled_spec (snd <$> outcomes)
              (set_fanouts (delete k (fanouts w)) w)) as (-> & _).
  rewrite Hrej. simpl. by rewrite app_nil_r, drop_all.
Qed.

End DatadogProperties.

(** ** The statements at the example deployment *)

Section Examples.
#[local] Existing Instance exampleHost.
Local Open Scope list_scope.

Local Abbreviation raceW1 := (run (boot exampleOptions) []).
Local Abbreviation raceW2 :=
  (run (step raceW1 (ProcessTraceItems exampleBatchA)) []).
Local Abbreviation raceW3 :=
  (run (step raceW2 (ProcessTraceItems exampleBatchB)) []).
Local Abbreviation raceMs := (num_mul (num_of_Z 5) (num_of_Z 1000)).
Local Abbreviation scheduled :=
  (run (boot exampleOptions) [ProcessTraceItems exampleBatchA]).
Local Abbreviation throwing :=
  (run (boot throwingOptions) [ProcessTraceItems exampleBatchA]).

(** The race of C1 on the example: the first call stores the three default
    metrics and schedules a flush that captures generation [1]; the second
    call brings a fourth metric, finds the buffer full and flushes at once;
    the timer of generation [1] then resumes into nothing. *)
Lemma no_double_flush_generation_race_witness :
  SchedulerWait 1 raceMs ∈ emitted raceW1 (ProcessTraceItems exampleBatchA)
  ∧ bufferFull (ingest exampleBatchB raceW2) = true
  ∧ 1%N ≠ flushId (this raceW3)
  ∧ emitted raceW3 (TimerElapsed 1) = []
  ∧ this (step raceW3 (TimerElapsed 1)) = this raceW3
  ∧ fanouts (step raceW3 (TimerElapsed 1)) = fanouts raceW3.
Proof.
  assert (SchedulerWait 1 raceMs
            ∈ emitted raceW1 (ProcessTraceItems exampleBatchA)) as Hwait.
  { apply last_Some_elem_of. vm_compute. reflexivity. }
  assert (bufferFull (ingest exampleBatchB raceW2) = true) as Hfull
    by (vm_compute; reflexivity).
  exact (conj Hwait (conj Hfull
           (no_double_flush_generation_race exampleOptions [] exampleBatchA 1
              raceMs [] exampleBatchB [] Hwait Hfull))).
Defined.

(** Snapshot and clear (C2) on the example: with three metrics buffered and
    the timer of generation [1] pending, both the batch that fills the
    buffer and the elapse of the timer leave an empty store. *)
Lemma snapshot_and_clear_atomic_witness :
  bufferFull (ingest exampleBatchB scheduled) = true
  ∧ flushId (this scheduled) ∈ timers scheduled
  ∧ metrics (this (performFlush scheduled)) = ∅
  ∧ metrics (this (step scheduled (ProcessTraceItems exampleBatchB))) = ∅
  ∧ metrics (this (step scheduled (TimerElapsed (flushId (this scheduled))))) = ∅.
Proof.
  assert (bufferFull (ingest exampleBatchB scheduled) = true) as Hfull
    by (vm_compute; reflexivity).
  assert (flushId (this scheduled) ∈ timers scheduled) as Hin.
  { apply last_Some_elem_of. vm_compute. reflexivity. }
  destruct (snapshot_and_clear_atomic exampleOptions
              [ProcessTraceItems exampleBatchA] scheduled exampleBatchB)
    as (_ & Hclear & _ & _ & _ & Hsize & Htimer).
  destruct (Hsize Hfull) as (l & _ & _ & Hafter).
  destruct (Htimer Hin) as (_ & Hafter').
  exact (conj Hfull (conj Hin (conj Hclear (conj Hafter Hafter')))).
Defined.

(** The size trigger of C3 on the example: the second batch fills the buffer
    while a flush is scheduled. *)
Lemma size_trigger_flushes_once_witness :
  bufferFull (ingest exampleBatchB scheduled) = true
  ∧ flushCount (emitted scheduled (ProcessTraceItems exampleBatchB)) = 1.
Proof.
  assert (bufferFull (ingest exampleBatchB scheduled) = true) as Hfull
    by (vm_compute; reflexivity).
  exact (conj Hfull
           (proj1 (size_trigger_flushes_once exampleOptions
                     [ProcessTraceItems exampleBatchA] exampleBatchB Hfull))).
Defined.

(** Coalescing (C4) on the example: the first batch again, while its flush
    is scheduled, stays at three distinct metrics. *)
Lemma scheduler_coalescing_witness :
  belowThreshold (boot exampleOptions)
    ([ProcessTraceItems exampleBatchA] ++ [ProcessTraceItems exampleBatchA])
  ∧ (length (timers scheduled) ≤ 1)%nat.
Proof.
  assert (belowThreshold (boot exampleOptions)
            ([ProcessTraceItems exampleBatchA]
             ++ [ProcessTraceItems exampleBatchA])) as Hbelow.
  { split; [vm_compute; reflexivity|].
    split; [vm_compute; reflexivity|exact I]. }
  exact (conj Hbelow
           (proj1 (scheduler_coalescing exampleOptions
                     [ProcessTraceItems exampleBatchA] exampleBatchA Hbelow))).
Defined.

(** The failing input of C5 on the example: the first of two sinks throws.
    The scheduled flush of the three buffered metrics calls the first sink
    only; the second sink is never called, and nothing is waited for. *)
Lemma throwing_sink_aborts_fanout_witness :
  metricSinks (this throwing) =
    (Sink <$> []) ++ ThrowingSink "first" (ErrorObject "boom") :: [Sink "second"]
  ∧ toMetricPayloads (metrics (this throwing)) ≠ []
  ∧ sentBatches (drop (length (calls throwing)) (calls (performFlush throwing))) =
      (λ sink, (sink, toMetricPayloads (metrics (this throwing))))
        <$> ((Sink <$> []) ++ [ThrowingSink "first" (ErrorObject "boom")])
  ∧ fanouts (performFlush throwing) = fanouts throwing
  ∧ sentBatches (emitted throwing (TimerElapsed 1)) =
      [(ThrowingSink "first" (ErrorObject "boom"),
        toMetricPayloads (metrics (this throwing)))]
  ∧ last (emitted throwing (TimerElapsed 1)) =
      Some (ConsoleErrorWith "Error flushing batch:" (ErrorObject "boom")).
Proof.
  assert (metricSinks (this throwing) =
            (Sink <$> []) ++ ThrowingSink "first" (ErrorObject "boom")
                             :: [Sink "second"]) as Hsinks
    by (vm_compute; reflexivity).
  assert (toMetricPayloads (metrics (this throwing)) ≠ []) as Hitems.
  { intros Heq. apply (f_equal length) in Heq. vm_compute in Heq. discriminate. }
  destruct (throwing_sink_aborts_fanout throwing [] "first" (ErrorObject "boom")
              [Sink "second"] Hsinks Hitems) as (_ & Hsent & Hfa & _).
  split; [exact Hsinks|]. split; [exact Hitems|]. split; [exact Hsent|].
  split; [exact Hfa|]. split; vm_compute; reflexivity.
Defined.

(** Empty flush (C6) on the example: with a negative threshold an empty
    batch flushes an empty store. *)
Lemma empty_flush_suppression_witness :
  toMetricPayloads (metrics (this (ingest [] (boot eagerOptions)))) = []
  ∧ flushCount (emitted (boot eagerOptions) (ProcessTraceItems [])) = 1
  ∧ sendCount (emitted (boot eagerOptions) (ProcessTraceItems [])) = 0.
Proof.
  assert (toMetricPayloads (metrics (this (ingest [] (boot eagerOptions)))) = [])
    as Hempty by (vm_compute; reflexivity).
  split; [exact Hempty|].
  split; [vm_compute; reflexivity|].
  exact (proj1 (empty_flush_suppression (boot eagerOptions)
                  (ProcessTraceItems []) Hempty)).
Defined.

(** Tag merge (C10) on the example: the call of [processTraceItems] stores
    the payload of the colliding message; the message's own [outcome] wins,
    the other trace tags and the message's [route] are all there. *)
Lemma tag_merge_precedence_witness :
  exampleItem [exampleEvent collidingMessage] ∈ collidingBatch
  ∧ exampleEvent collidingMessage
      ∈ metricEventsOf (exampleItem [exampleEvent collidingMessage])
  ∧ isValidMetric (dce_message (exampleEvent collidingMessage)) = true
  ∧ ∃ tags,
      StoreMetric (taggedPayload
                     (globalTagsOf (exampleItem [exampleEvent collidingMessage]))
                     (exampleEvent collidingMessage))
        ∈ emitted (boot exampleOptions) (ProcessTraceItems collidingBatch)
      ∧ js_get "tags"
          (taggedPayload
             (globalTagsOf (exampleItem [exampleEvent collidingMessage]))
             (exampleEvent collidingMessage)) = JObj tags
      ∧ tags !! "outcome"%string = Some (JStr "mine")
      ∧ tags !! "scriptName"%string = Some (JStr "worker")
      ∧ tags !! "route"%string = Some (JStr "/").
Proof.
  assert (exampleItem [exampleEvent collidingMessage] ∈ collidingBatch)
    as Hitem by apply list_elem_of_here.
  assert (exampleEvent collidingMessage
            ∈ metricEventsOf (exampleItem [exampleEvent collidingMessage]))
    as Hevent.
  { apply list_elem_of_filter. split; [reflexivity|apply list_elem_of_here]. }
  assert (isValidMetric (dce_message (exampleEvent collidingMessage)) = true)
    as Hv by (vm_compute; reflexivity).
  split; [exact Hitem|]. split; [exact Hevent|]. split; [exact Hv|].
  destruct (tag_merge_precedence (boot exampleOptions) collidingBatch
              (exampleItem [exampleEvent collidingMessage])
              (exampleEvent collidingMessage) Hitem Hevent Hv)
    as (tags & e & Hstored & _ & Htags & _ & _ & Hlook & _).
  exists tags. split; [exact Hstored|]. split; [exact Htags|].
  rewrite !Hlook. vm_compute. auto.
Defined.

(** The claim C8 as it is written fails: the scheduled flush of the example
    executes when its timer elapses (one snapshot, both sinks called), and
    the generation stays at [1]. *)
Lemma scheduled_flush_keeps_generation :
  (flushCount (emitted scheduled (TimerElapsed 1)) = 1
   ∧ sendCount (emitted scheduled (TimerElapsed 1)) = 2
   ∧ flushId (this scheduled) = 1%N
   ∧ flushId (this (step scheduled (TimerElapsed 1))) = 1%N)
  ∧ ¬ (∀ (options : MetricTailOptions) (inputs : list Input) (i : Input),
         0 < flushCount (emitted (run (boot options) inputs) i) →
         (flushId (this (run (boot options) inputs))
          < flushId (this (step (run (boot options) inputs) i)))%N).
Proof.
  split; [repeat split; vm_compute; reflexivity|].
  intros Hclaim.
  specialize (Hclaim exampleOptions [ProcessTraceItems exampleBatchA]
                (TimerElapsed 1)).
  assert (0 < flushCount (emitted scheduled (TimerElapsed 1))) as Hflush
    by (vm_compute; lia).
  apply Hclaim in Hflush. vm_compute in Hflush. discriminate.
Qed.

(** The claim C9 as it is written fails: a configured duration of [0] gives
    [5], not the minimum of [0] and [30]. *)
Lemma zero_duration_not_min :
  (maxBufferDuration (constructor zeroDurationOptions) = num_of_Z 5
   ∧ Math_min (num_of_Z 0) (num_of_Z 30) = num_of_Z 0)
  ∧ ¬ (∀ options : MetricTailOptions,
         maxBufferDuration (constructor options) =
           Math_min (default (num_of_Z 5) (opt_maxBufferDuration options))
                    (num_of_Z 30)).
Proof.
  split; [split; vm_compute; reflexivity|].
  intros Hclaim. specialize (Hclaim zeroDurationOptions).
  vm_compute in Hclaim. discriminate.
Qed.

End Examples.

(** ** The further statements at the example deployment *)

Section MoreExamples.
#[local] Existing Instance exampleHost.
Local Open Scope list_scope.

Local Abbreviation buffered :=
  (run (boot exampleOptions) [ProcessTraceItems exampleBatchA]).
Local Abbreviation exampleWait := (num_mul (num_of_Z 5) (num_of_Z 1000)).
Local Abbreviation awaiting := (performFlush buffered).
Local Abbreviation bufferedItems := (toMetricPayloads (metrics (this buffered))).
Local Abbreviation rejectedWait :=
  (step buffered (WaitRejected (flushId (this buffered)))).
Local Abbreviation afterRejection :=
  [ProcessTraceItems exampleBatchA; TimerElapsed 1].

(** After the first batch three metrics are buffered, and the timer of
    generation [1] is pending. *)
Lemma buffered_metrics_scheduled_witness :
  0 < getMetricCount (metrics (this buffered))
  ∧ noWaitRejected [ProcessTraceItems exampleBatchA]
  ∧ flushScheduled (this buffered) = true
  ∧ flushId (this buffered) ∈ timers buffered.
Proof.
  assert (0 < getMetricCount (metrics (this buffered))) as Hpos
    by (vm_compute; lia).
  assert (noWaitRejected [ProcessTraceItems exampleBatchA]) as Hno.
  { intros g Hin. apply list_elem_of_singleton in Hin. discriminate. }
  destruct (buffered_metrics_scheduled exampleOptions
              [ProcessTraceItems exampleBatchA] Hpos) as (Hs & _ & Hlive).
  exact (conj Hpos (conj Hno (conj Hs (Hlive Hno)))).
Defined.

(** The elapse of that timer flushes the three metrics to both sinks. *)
Lemma live_timer_flushes_witness :
  flushId (this buffered) ∈ timers buffered
  ∧ emitted buffered (TimerElapsed (flushId (this buffered))) =
      flushCalls (opt_sinks exampleOptions) bufferedItems.
Proof.
  assert (flushId (this buffered) ∈ timers buffered) as Hin.
  { apply last_Some_elem_of. vm_compute. reflexivity. }
  exact (conj Hin
           (proj1 (proj2 (live_timer_flushes exampleOptions
                            [ProcessTraceItems exampleBatchA] Hin)))).
Defined.

(** When instead the wait of that timer is rejected, the three metrics stay
    buffered with a flush that counts as scheduled: the first batch again
    and the elapse of generation [1] flush nothing and request no wait. *)
Lemma rejected_wait_strands_buffer_witness :
  flushId (this buffered) ∈ timers buffered
  ∧ belowThreshold rejectedWait afterRejection
  ∧ flushScheduled (this (run rejectedWait afterRejection)) = true
  ∧ flushCount (calls (run rejectedWait afterRejection))
    = flushCount (calls buffered).
Proof.
  assert (flushId (this buffered) ∈ timers buffered) as Hin.
  { apply last_Some_elem_of. vm_compute. reflexivity. }
  assert (belowThreshold rejectedWait afterRejection) as Hbelow.
  { split; [vm_compute; reflexivity|]. split; exact I. }
  destruct (rejected_wait_strands_buffer exampleOptions
              [ProcessTraceItems exampleBatchA] afterRejection Hin Hbelow)
    as (_ & _ & Hs & _ & Hf & _).
  exact (conj Hin (conj Hbelow (conj Hs Hf))).
Defined.

(** The first batch asked for a wait of five seconds. *)
Lemma wait_at_most_30s_witness :
  exampleWait ∈ waitsOf (calls buffered)
  ∧ exampleWait =
      num_mul (maxBufferDuration (constructor exampleOptions)) (num_of_Z 1000)
  ∧ num_le exampleWait (num_of_Z 30000) = true.
Proof.
  assert (exampleWait ∈ waitsOf (calls buffered)) as Hin.
  { apply last_Some_elem_of. vm_compute. reflexivity. }
  exact (conj Hin
           (wait_at_most_30s exampleOptions [ProcessTraceItems exampleBatchA]
              exampleWait Hin)).
Defined.

(** An empty batch after the first one changes nothing. *)
Lemma empty_batch_noop_witness :
  bufferFull buffered = false
  ∧ step buffered (ProcessTraceItems []) = buffered.
Proof.
  assert (bufferFull buffered = false) as Hfull by (vm_compute; reflexivity).
  exact (conj Hfull
           (empty_batch_noop exampleOptions [ProcessTraceItems exampleBatchA]
              Hfull)).
Defined.


(** Both sinks of the example as Datadog sinks without a key, the network
    down: the flush of the three metrics reports nothing. *)
Lemma datadog_keyless_drop_is_silent_witness :
  fanouts awaiting !! 0 = Some [Sink "datadog"; Sink "otel"]
  ∧ length [keylessSink; keylessSink] = length [Sink "datadog"; Sink "otel"]
  ∧ Forall (λ sink, Datadog.keyMissing (Datadog.apiKey sink) = true)
           [keylessSink; keylessSink]
  ∧ bufferedItems ≠ []
  ∧ emitted awaiting
      (FanoutSettled 0
         (snd <$> ((λ sink, Datadog.sendMetrics sink bufferedItems (offline sink))
                     <$> [keylessSink; keylessSink]))) = [].
Proof.
  assert (fanouts awaiting !! 0 = Some [Sink "datadog"; Sink "otel"]) as Hk
    by (vm_compute; reflexivity).
  assert (length [keylessSink; keylessSink]
          = length [Sink "datadog"; Sink "otel"]) as Hlen by reflexivity.
  assert (Forall (λ sink, Datadog.keyMissing (Datadog.apiKey sink) = true)
                 [keylessSink; keylessSink]) as Hkeys
    by (repeat constructor).
  assert (bufferedItems ≠ []) as Hitems.
  { intros Heq. apply (f_equal length) in Heq. vm_compute in Heq. discriminate. }
  exact (conj Hk (conj Hlen (conj Hkeys (conj Hitems
           (proj2 (datadog_keyless_drop_is_silent awaiting 0
                     [Sink "datadog"; Sink "otel"] [keylessSink; keylessSink]
                     bufferedItems offline Hk Hlen Hkeys Hitems)))))).
Defined.

End MoreExamples.
